(** * Report dashboard engine (reportes-dashboard.js)

    A shallow embedding of the client-side report dashboard: the report
    registry [REPORT_CONFIG], the request/cache coordinator
    ([generateCacheKey], [fetchReport], [clearCache], [loadCardData]) and the
    report modal ([open], [close], [runReport], [renderTable]).

    Two variants of the script exist in the repository:
    - [src/staticfiles/js/reportes-dashboard.js], with the response cache,
      the in-flight registry and the request timeout; it is embedded at the
      top level of this file;
    - [src/static/js/reportes-dashboard.js], which fetches eagerly and has no
      cache; its [fetchReport] is embedded in [Module Eager].

    Conventions.  A JavaScript string is a Rocq [string] holding its UTF-8
    bytes.  A plain object used as a record of filters is an association list
    in property-enumeration order.  A [Map] keyed by strings is a [gmap].  The
    event loop is a step function on an explicit state: every promise created
    by a network request has an identifier, and the reactions attached to it
    run when the request settles. *)

From Stdlib Require Import Ascii DecimalString.
From stdpp Require Import gmap strings list.

Local Open Scope string_scope.
Local Open Scope nat_scope.
Local Open Scope list_scope.

(** ** Characters and strings *)

(** The double quote, written by its code. *)
Definition dq : string := String (Ascii.ascii_of_nat 34) "".

(** The line feed of a template literal that spans several lines. *)
Definition nl : string := String (Ascii.ascii_of_nat 10) "".

(** The decimal form of a number, as a template literal prints it. *)
Definition decimal (n : nat) : string := NilEmpty.string_of_uint (Nat.to_uint n).

Definition decimalN (n : N) : string := NilEmpty.string_of_uint (N.to_uint n).

Fixpoint spaces (n : nat) : string :=
  match n with
  | O => ""
  | S m => " " +:+ spaces m
  end.

Definition hex_digit (n : nat) : Ascii.ascii :=
  Ascii.ascii_of_nat (if n <? 10 then 48 + n else 87 + n).

Definition HEX_digit (n : nat) : Ascii.ascii :=
  Ascii.ascii_of_nat (if n <? 10 then 48 + n else 55 + n).

(** [concat_map f s] replaces every character [c] of [s] by [f c]. *)
Fixpoint concat_map (f : Ascii.ascii -> string) (s : string) : string :=
  match s with
  | EmptyString => ""
  | String c r => f c +:+ concat_map f r
  end.

(** [String.prototype.replace(/c/g, r)] for a one-character pattern. *)
Definition replaceAll (c : Ascii.ascii) (r : string) (s : string) : string :=
  concat_map (fun x => if decide (x = c) then r else String x "") s.

(** [Array.prototype.join]. *)
Fixpoint join (sep : string) (l : list string) : string :=
  match l with
  | [] => ""
  | [x] => x
  | x :: r => x +:+ sep +:+ join sep r
  end.

(** ** JavaScript values found in filter objects *)

Inductive jsval :=
| VUndefined
| VNull
| VBool (b : bool)
| VStr (s : string).

#[global] Instance jsval_eq_dec : EqDecision jsval.
Proof. solve_decision. Defined.

(** ToBoolean, the test of [if (value)] and of [a || b]. *)
Definition truthy (v : jsval) : bool :=
  match v with
  | VUndefined | VNull => false
  | VBool b => b
  | VStr s => negb (bool_decide (s = ""))
  end.

(** ToString, applied by [URLSearchParams.append] to its arguments. *)
Definition ToString (v : jsval) : string :=
  match v with
  | VUndefined => "undefined"
  | VNull => "null"
  | VBool true => "true"
  | VBool false => "false"
  | VStr s => s
  end.

(** ** Plain objects

    The own enumerable string-keyed properties of an object, in the order
    [Object.entries], [Object.assign], the spread syntax and [JSON.stringify]
    visit them: array-index keys in ascending numeric order first, then the
    other keys in the order of their creation. *)

Definition jsobj := list (string * jsval).

Definition is_digit (c : Ascii.ascii) : bool :=
  let n := Ascii.nat_of_ascii c in (48 <=? n) && (n <=? 57).

Fixpoint digits_value (s : string) (acc : N) : option N :=
  match s with
  | EmptyString => Some acc
  | String c r =>
      if is_digit c
      then digits_value r (acc * 10 + N.of_nat (Ascii.nat_of_ascii c - 48))%N
      else None
  end.

(** A key is an array index when it is the canonical decimal form of an
    integer between 0 and 2^32 - 2. *)
Definition array_index (k : string) : option N :=
  match k with
  | EmptyString => None
  | _ =>
      match digits_value k 0 with
      | Some n =>
          if bool_decide (decimalN n = k) && (n <=? 4294967294)%N
          then Some n else None
      | None => None
      end
  end.

Fixpoint obj_get (o : jsobj) (k : string) : option jsval :=
  match o with
  | [] => None
  | (k', v) :: r => if decide (k' = k) then Some v else obj_get r k
  end.

Definition obj_keys (o : jsobj) : list string := o.*1.

(** Assignment to a property the object already has: the value changes, the
    position does not. *)
Fixpoint obj_replace (k : string) (v : jsval) (o : jsobj) : jsobj :=
  match o with
  | [] => []
  | (k', v') :: r =>
      if decide (k' = k) then (k', v) :: r else (k', v') :: obj_replace k v r
  end.

(** A new array-index key goes before the first key that is a larger index or
    no index at all. *)
Fixpoint obj_insert_index (n : N) (k : string) (v : jsval) (o : jsobj) : jsobj :=
  match o with
  | [] => [(k, v)]
  | (k', v') :: r =>
      match array_index k' with
      | Some n' =>
          if (n' <? n)%N then (k', v') :: obj_insert_index n k v r
          else (k, v) :: o
      | None => (k, v) :: o
      end
  end.

(** [o[k] = v]. *)
Definition obj_set (k : string) (v : jsval) (o : jsobj) : jsobj :=
  match obj_get o k with
  | Some _ => obj_replace k v o
  | None =>
      match array_index k with
      | Some n => obj_insert_index n k v o
      | None => o ++ [(k, v)]
      end
  end.

(** [Object.assign(target, source)]: every entry of the source is assigned to
    the target, in the source's order. *)
Definition obj_assign (target source : jsobj) : jsobj :=
  fold_left (fun acc kv => obj_set kv.1 kv.2 acc) source target.

(** [{ ...source }]: a fresh object that receives the source's entries. *)
Definition obj_spread (source : jsobj) : jsobj := obj_assign [] source.

(** ** JSON.stringify on filter objects *)

Definition json_escape_char (c : Ascii.ascii) : string :=
  let n := Ascii.nat_of_ascii c in
  if n =? 34 then "\" +:+ dq
  else if n =? 92 then "\\"
  else if n =? 8 then "\b"
  else if n =? 12 then "\f"
  else if n =? 10 then "\n"
  else if n =? 13 then "\r"
  else if n =? 9 then "\t"
  else if n <? 32 then "\u00" +:+ String (hex_digit (n / 16)) (String (hex_digit (n mod 16)) "")
  else String c "".

Definition json_quote (s : string) : string :=
  dq +:+ concat_map json_escape_char s +:+ dq.

(** The serialization of a property value; [undefined] has none, and the
    property is then left out of the object. *)
Definition json_value (v : jsval) : option string :=
  match v with
  | VUndefined => None
  | VNull => Some "null"
  | VBool true => Some "true"
  | VBool false => Some "false"
  | VStr s => Some (json_quote s)
  end.

Definition json_member (kv : string * jsval) : option string :=
  match json_value kv.2 with
  | Some sv => Some (json_quote kv.1 +:+ ":" +:+ sv)
  | None => None
  end.

Definition JSON_stringify (o : jsobj) : string :=
  "{" +:+ join "," (omap json_member o) +:+ "}".

(** ** Cache keys *)

(** [this.globalFilters], an object with the two properties [start] and
    [end], both strings. *)
Record global_filters := GlobalFilters { gf_start : string; gf_end : string }.

Definition globalFilters_object (g : global_filters) : jsobj :=
  [("start", VStr (gf_start g)); ("end", VStr (gf_end g))].

(** The [options] argument of [fetchReport] and [generateCacheKey].  The code
    passes [{ useGlobalFilters: true }] or [{ filters }]. *)
Record options := Options {
  filters : option jsobj;
  useGlobalFilters : bool
}.

Definition generateCacheKey (g : global_filters) (type : string) (opts : options) : string :=
  let filters := default [] (filters opts) in
  let useGlobal := if useGlobalFilters opts then "global" else "custom" in
  let filterStr := JSON_stringify filters in
  let globalStr := JSON_stringify (globalFilters_object g) in
  type +:+ "-" +:+ useGlobal +:+ "-" +:+ filterStr +:+ "-" +:+ globalStr.

Example generateCacheKey_card :
  generateCacheKey (GlobalFilters "" "") "total-sales" (Options None true)
  = "total-sales-global-{}-{" +:+ dq +:+ "start" +:+ dq +:+ ":" +:+ dq +:+ dq +:+ ","
      +:+ dq +:+ "end" +:+ dq +:+ ":" +:+ dq +:+ dq +:+ "}".
Proof. reflexivity. Qed.

(** ** URLSearchParams *)

Definition URLSearchParams := list (string * string).

Definition params_append (name value : string) (p : URLSearchParams) : URLSearchParams :=
  p ++ [(name, value)].

(** [set] overwrites the first pair named [name] and removes the later ones;
    when there is none it appends. *)
Fixpoint params_set (name value : string) (p : URLSearchParams) : URLSearchParams :=
  match p with
  | [] => [(name, value)]
  | (n, v) :: r =>
      if decide (n = name)
      then (n, value) :: filter (fun nv => nv.1 ≠ name) r
      else (n, v) :: params_set name value r
  end.

(** The application/x-www-form-urlencoded byte serializer: letters, digits
    and [*-._] stay, a space becomes [+], every other byte is
    percent-encoded. *)
Definition urlencode_byte (c : Ascii.ascii) : string :=
  let n := Ascii.nat_of_ascii c in
  if ((48 <=? n) && (n <=? 57)) || ((65 <=? n) && (n <=? 90))
     || ((97 <=? n) && (n <=? 122))
     || (n =? 42) || (n =? 45) || (n =? 46) || (n =? 95)
  then String c ""
  else if n =? 32 then "+"
  else "%" +:+ String (HEX_digit (n / 16)) (String (HEX_digit (n mod 16)) "").

Definition urlencode (s : string) : string := concat_map urlencode_byte s.

Definition params_toString (p : URLSearchParams) : string :=
  join "&" (map (fun nv => urlencode nv.1 +:+ "=" +:+ urlencode nv.2) p).

(** ** Payloads

    The parsed JSON body of a response.  The embedded code never computes
    with a number of the payload, so integers stand for them. *)

#[local] Unset Elimination Schemes.
Inductive json :=
| JNull
| JBool (b : bool)
| JNum (n : Z)
| JStr (s : string)
| JArr (items : list json)
| JObj (members : list (string * json)).
#[local] Set Elimination Schemes.

Fixpoint assoc {A} (k : string) (l : list (string * A)) : option A :=
  match l with
  | [] => None
  | (k', a) :: r => if decide (k' = k) then Some a else assoc k r
  end.

(** [data?.k]: [None] stands for [undefined]. *)
Definition json_field (data : json) (k : string) : option json :=
  match data with
  | JObj members => assoc k members
  | _ => None
  end.

(** [(data) => (Array.isArray(data?.k) ? data.k : [])]. *)
Definition rows_in (k : string) (data : json) : list json :=
  match json_field data k with
  | Some (JArr items) => items
  | _ => []
  end.

(** ** Report descriptors *)

Record descriptor := Descriptor {
  endpoint : string;
  supportsRange : option bool;
  paramMap : option (list (string * string));
  defaultFilters : option jsobj;
  cardValue : option (json -> string);
  summaryFields : option (list (string * (json -> string)));
  rowsExtractor : option (json -> list json);
  (** [None] when the call throws. *)
  renderRow : json -> option string;
  emptyMessage : option string
}.

(** [config.paramMap?.[k] || k]. *)
Definition param_name (cfg : descriptor) (k : string) : string :=
  match paramMap cfg with
  | Some map =>
      match assoc k map with
      | Some name => if decide (name = "") then k else name
      | None => k
      end
  | None => k
  end.

(** ** The registry

    The card headline, the summary slots and the row markup of a report call
    [Intl.NumberFormat] and print numbers of the payload; they are taken as
    parameters, indexed by the report type (and the slot).  Every row
    template reads a property of the row and so throws on a [null] row. *)

Section Registry.
Variable card_text : string -> json -> string.
Variable summary_text : string -> string -> json -> string.
Variable row_markup : string -> json -> string.

Definition row_template (type : string) (row : json) : option string :=
  match row with
  | JNull => None
  | _ => Some (row_markup type row)
  end.

Definition report (type endpoint : string) (supportsRange : bool)
    (paramMap : option (list (string * string)))
    (slots : list string) (defaultFilters : option jsobj)
    (rows : string) (emptyMessage : string) : string * descriptor :=
  (type,
   {| endpoint := endpoint;
      supportsRange := Some supportsRange;
      paramMap := paramMap;
      defaultFilters := defaultFilters;
      cardValue := Some (card_text type);
      summaryFields := Some (map (fun slot => (slot, summary_text type slot)) slots);
      rowsExtractor := Some (rows_in rows);
      renderRow := row_template type;
      emptyMessage := Some emptyMessage |}).

Definition range_params : list (string * string) :=
  [("start", "fecha_inicio"); ("end", "fecha_fin")].

Definition REPORT_CONFIG : gmap string descriptor :=
  list_to_map [
    report "total-sales" "/app/reportes/ventas-totales/" true
      (Some range_params)
      ["total"; "cost"; "profit"; "discount"; "tradein"; "invoices"] None
      "rows" "No se encontraron ventas para los filtros seleccionados.";
    report "sales-cost" "/app/reportes/costo-ventas/" true
      (Some range_params)
      ["cost"; "units"; "invoices"] None
      "rows" "No se encontraron registros para los filtros seleccionados.";
    report "inventory-cost" "/app/reportes/costo-inventario/" false
      None
      ["value"; "products"; "stock"] None
      "rows" "No se encontraron productos con stock disponible.";
    report "sales-period" "/app/reportes/ventas-periodo/" true
      (Some (range_params ++ [("period", "period")]))
      ["count"; "total"] None
      "rows" "No se encontraron ventas para los filtros seleccionados.";
    report "profit-period" "/app/reportes/ganancias-periodo/" true
      (Some (range_params ++ [("period", "period")]))
      ["total-sales"; "total-cost"; "total-profit"; "count"] None
      "rows" "No se encontraron resultados para los filtros seleccionados.";
    report "product-sales" "/app/reportes/ventas-producto/" true
      (Some (range_params ++ [("search", "q")]))
      ["products"; "quantity"; "total"] None
      "rows" "No se encontraron resultados para la búsqueda aplicada.";
    report "category-analysis" "/app/reportes/categorias-analitico/" false
      (Some [("search", "q")])
      ["categories"; "groups"; "products"; "stock"; "value"] None
      "rows" "No se encontraron registros que coincidan con la búsqueda.";
    report "cash-status" "/app/reportes/caja/" true
      (Some (range_params ++ [("page_size", "page_size")]))
      ["sessions"; "cash"; "sales"] (Some [("page_size", VStr "10")])
      "sessions" "No se encontraron sesiones de caja para los filtros aplicados.";
    report "credit-installments" "/app/reportes/cuotas/" true
      (Some (range_params ++ [("status", "estado")]))
      ["credits"; "pending"; "overdue"; "upcoming"] None
      "creditos" "No se encontraron créditos para los filtros seleccionados."
  ].
End Registry.

(** ** Building the request URL (cached variant) *)

Definition nonempty (s : string) : bool := negb (bool_decide (s = "")).

(** Lines 502-515 of [fetchReport]: defaults, then the global range under its
    mapped names, then the explicit filters. *)
Definition merged_filters (cfg : descriptor) (g : global_filters) (opts : options) : jsobj :=
  let filters0 := obj_spread (default [] (defaultFilters cfg)) in
  let filters1 :=
    if useGlobalFilters opts && negb (bool_decide (supportsRange cfg = Some false))
    then
      let f :=
        if nonempty (gf_start g)
        then obj_set (param_name cfg "start") (VStr (gf_start g)) filters0
        else filters0 in
      if nonempty (gf_end g)
      then obj_set (param_name cfg "end") (VStr (gf_end g)) f
      else f
    else filters0 in
  match filters opts with
  | Some explicit => obj_assign filters1 explicit
  | None => filters1
  end.

(** Lines 517-521: [Object.entries(filters).forEach(...)]. *)
Definition fetch_params (filters : jsobj) : URLSearchParams :=
  fold_left
    (fun params kv => if truthy kv.2 then params_append kv.1 (ToString kv.2) params else params)
    filters [].

Definition request_url (cfg : descriptor) (g : global_filters) (opts : options) : string :=
  endpoint cfg +:+ "?" +:+ params_toString (fetch_params (merged_filters cfg g opts)).

(** ** The eager variant, [src/static/js/reportes-dashboard.js] *)

Module Eager.

Definition merged_filters (cfg : descriptor) (g : global_filters) (opts : options) : jsobj :=
  let filters0 := obj_spread (default [] (defaultFilters cfg)) in
  let filters1 :=
    if useGlobalFilters opts && negb (bool_decide (supportsRange cfg = Some false))
    then
      let f :=
        if nonempty (gf_start g) then obj_set "start" (VStr (gf_start g)) filters0
        else filters0 in
      if nonempty (gf_end g) then obj_set "end" (VStr (gf_end g)) f else f
    else filters0 in
  match filters opts with
  | Some explicit => obj_assign filters1 explicit
  | None => filters1
  end.

(** [value === null || value === undefined || value === ""]. *)
Definition is_blank (v : jsval) : bool :=
  match v with
  | VNull | VUndefined => true
  | VStr s => bool_decide (s = "")
  | VBool _ => false
  end.

(** [map[key] || key] with [map = config.paramMap || {}]. *)
Definition fetch_params (cfg : descriptor) (filters : jsobj) : URLSearchParams :=
  fold_left
    (fun params kv =>
       if is_blank kv.2 then params
       else params_set (param_name cfg kv.1) (ToString kv.2) params)
    filters [].

Definition request_url (cfg : descriptor) (g : global_filters) (opts : options) : string :=
  let qs := params_toString (fetch_params cfg (merged_filters cfg g opts)) in
  if nonempty qs then endpoint cfg +:+ "?" +:+ qs else endpoint cfg.

(** [fetchReport] up to the call of [fetch]: the rejection of an unknown
    type, or the URL that is requested. *)
Definition fetchReport (config : gmap string descriptor) (g : global_filters)
    (type : string) (opts : options) : string + string :=
  match config !! type with
  | None => inl ("Reporte no configurado: " +:+ type)
  | Some cfg => inr (request_url cfg g opts)
  end.

End Eager.

(** ** Formatting *)

Definition em_dash : string := "—".

(** [escapeHtml] on a string: the five replacements, in the source's order. *)
Definition escapeHtml (value : string) : string :=
  replaceAll "'"%char "&#39;"
    (replaceAll (Ascii.ascii_of_nat 34) "&quot;"
       (replaceAll ">"%char "&gt;"
          (replaceAll "<"%char "&lt;"
             (replaceAll "&"%char "&amp;" value)))).

(** ** Errors, responses and the network *)

Record error := Error { err_name : string; err_message : string }.

Inductive settled :=
| Fulfilled (data : json)
| Rejected (e : error).

(** What [response.json()] does: it parses the body, fails, or never
    completes. *)
Inductive body_outcome :=
| BodyJSON (data : json)
| BodyError (e : error)
| BodyPending.

Record response := Response {
  status : nat;
  statusText : string;
  body : body_outcome
}.

(** [response.ok]. *)
Definition response_ok (r : response) : bool :=
  (200 <=? status r) && (status r <=? 299).

(** What the network does with one request: the response headers arrive
    [t] milliseconds after the request was issued, or [fetch] fails after
    [t] milliseconds, or nothing ever comes back. *)
Inductive network_behaviour :=
| Responds (t : N) (r : response)
| Fails (t : N) (e : error)
| Silent.

(** [setTimeout(() => controller.abort(), 30000)]. *)
Definition TIMEOUT_MS : N := 30000.

Definition AbortError : error := Error "AbortError" "The operation was aborted.".

Inductive outcome (A : Type) :=
| Resolves (a : A)
| Throws (e : error)
| Never.
Arguments Resolves {A} a.
Arguments Throws {A} e.
Arguments Never {A}.

(** The promise of [fetch(url, { signal })]: the abort timer wins unless the
    network answered before it fired. *)
Definition fetch (b : network_behaviour) : outcome response :=
  match b with
  | Responds t r => if (t <? TIMEOUT_MS)%N then Resolves r else Throws AbortError
  | Fails t e => if (t <? TIMEOUT_MS)%N then Throws e else Throws AbortError
  | Silent => Throws AbortError
  end.

(** The first [.then]: the timer is cleared, a status that is not OK throws,
    otherwise the body is parsed. *)
Definition on_response (r : response) : outcome json :=
  if response_ok r then
    match body r with
    | BodyJSON data => Resolves data
    | BodyError e => Throws e
    | BodyPending => Never
    end
  else Throws (Error "Error" ("HTTP " +:+ decimal (status r) +:+ ": " +:+ statusText r)).

(** The [.catch]: an abort is renamed, anything else is thrown again. *)
Definition on_error (e : error) : error :=
  if decide (err_name e = "AbortError")
  then Error "Error" "La petición tomó demasiado tiempo"
  else e.

(** How the promise built by [fetchReport] settles, if it does. *)
Definition request_outcome (b : network_behaviour) : option settled :=
  match fetch b with
  | Resolves r =>
      match on_response r with
      | Resolves data => Some (Fulfilled data)
      | Throws e => Some (Rejected (on_error e))
      | Never => None
      end
  | Throws e => Some (Rejected (on_error e))
  | Never => None
  end.

(** ** The page: cards and modal elements *)

Record card := Card {
  (** [data-report-trigger]. *)
  trigger : string;
  (** [card.dataset.loaded] is set. *)
  loaded : bool;
  (** The intersection observer still watches the card. *)
  observed : bool;
  (** The class [report-card--loading]. *)
  card_loading : bool;
  (** The text of the [data-summary-value] node, when the card has one. *)
  summary_value : option string
}.

Record filter_node := FilterNode {
  (** [data-filter]. *)
  data_filter : string;
  (** [node.value]; [None] when the element has no such property. *)
  node_value : option string
}.

Record summary_node := SummaryNode {
  (** [data-summary]. *)
  data_summary : string;
  textContent : string
}.

Record table_body := TableBody {
  (** [closest("table")] and the number of its [thead th] cells. *)
  header_cells : option nat;
  innerHTML : string
}.

Record modal := Modal {
  modal_type : string;
  modal_config : descriptor;
  isOpen : bool;
  (** [undefined] until the first successful run. *)
  loadedOnce : bool;
  lastFilters : jsobj;
  (** The element that had the focus when the modal was opened. *)
  previousActive : option string;
  (** The class [is-visible]. *)
  is_visible : bool;
  aria_hidden : option string;
  (** [element.dataset.loading]. *)
  dataset_loading : option string;
  filterNodes : list filter_node;
  summaryNodes : list summary_node;
  tableBody : option table_body;
  (** [emptyNode.hidden], when the modal has a [data-empty] node. *)
  emptyNode : option bool
}.

(** ** Rendering a payload in a modal *)

Definition set_summaryNodes (l : list summary_node) (m : modal) : modal :=
  Modal (modal_type m) (modal_config m) (isOpen m) (loadedOnce m) (lastFilters m)
    (previousActive m) (is_visible m) (aria_hidden m) (dataset_loading m)
    (filterNodes m) l (tableBody m) (emptyNode m).

Definition set_table (tb : table_body) (hidden : bool) (m : modal) : modal :=
  Modal (modal_type m) (modal_config m) (isOpen m) (loadedOnce m) (lastFilters m)
    (previousActive m) (is_visible m) (aria_hidden m) (dataset_loading m)
    (filterNodes m) (summaryNodes m) (Some tb)
    (match emptyNode m with Some _ => Some hidden | None => None end).

(** Every resolver of the registry is a function; the other form the code
    accepts, the name of a payload field, is not used by it. *)
Definition renderSummary (data : json) (m : modal) : modal :=
  let summaryConfig := default [] (summaryFields (modal_config m)) in
  set_summaryNodes
    (map (fun node =>
            let value :=
              match assoc (data_summary node) summaryConfig with
              | Some resolver => resolver data
              | None => em_dash
              end in
            SummaryNode (data_summary node)
              (if decide (value = "") then em_dash else value))
         (summaryNodes m))
    m.

Definition getTableColumnCount (tb : table_body) : nat :=
  match header_cells tb with
  | None => 1
  | Some n => if n =? 0 then 1 else n
  end.

(** The template literal of the empty state, lines 730-734. *)
Definition empty_row (columnCount : nat) (message : string) : string :=
  nl +:+ spaces 20 +:+ "<tr>"
  +:+ nl +:+ spaces 24 +:+ "<td colspan=" +:+ dq +:+ decimal columnCount +:+ dq
  +:+ " class=" +:+ dq +:+ "report-empty-state" +:+ dq +:+ ">"
  +:+ escapeHtml message +:+ "</td>"
  +:+ nl +:+ spaces 20 +:+ "</tr>"
  +:+ nl +:+ spaces 16.

(** [this.config.emptyMessage || "Sin resultados disponibles."]. *)
Definition empty_message (cfg : descriptor) : string :=
  match emptyMessage cfg with
  | Some msg => if decide (msg = "") then "Sin resultados disponibles." else msg
  | None => "Sin resultados disponibles."
  end.

(** [rows.map((row) => this.config.renderRow(row))]; [None] when a call
    throws. *)
Definition render_rows (cfg : descriptor) (rows : list json) : option (list string) :=
  mapM (renderRow cfg) rows.

(** [this.config.rowsExtractor ? this.config.rowsExtractor(data) : []]. *)
Definition extract_rows (cfg : descriptor) (data : json) : list json :=
  match rowsExtractor cfg with
  | Some extract => extract data
  | None => []
  end.

(** [renderTable]; the flag tells whether it returned normally. *)
Definition renderTable (data : json) (m : modal) : modal * bool :=
  match tableBody m with
  | None => (m, true)
  | Some tb =>
      let rows := extract_rows (modal_config m) data in
      match rows with
      | _ :: _ =>
          match render_rows (modal_config m) rows with
          | Some fragments =>
              (set_table (TableBody (header_cells tb) (join "" fragments)) true m, true)
          | None => (m, false)
          end
      | [] =>
          let columnCount := getTableColumnCount tb in
          let message := empty_message (modal_config m) in
          (set_table (TableBody (header_cells tb) (empty_row columnCount message)) false m, true)
      end
  end.

Definition render (data : json) (m : modal) : modal * bool :=
  renderTable data (renderSummary data m).

(** ** The dashboard state *)

(** The request log: request [p] created promise [p]. *)
Record request := Request { req_key : string; req_url : string }.

(** What [fetchReport] returns: a promise that is already settled, or the
    promise of request [p]. *)
Inductive promise :=
| Settled (r : settled)
| InFlight (p : nat).

(** The [then]/[catch]/[finally] chains the callers attach to a promise. *)
Inductive reaction :=
(** [loadCardData], lines 433-452. *)
| CardLeader (i : nat) (cfg : descriptor) (cacheKey : string)
(** [loadCardData], lines 415-423. *)
| CardFollower (i : nat) (cfg : descriptor)
(** [runReport], lines 677-690. *)
| ModalRun (type : string).

Record dashboard := Dashboard {
  config : gmap string descriptor;
  (** [this.cards], in insertion order; a card is its index in
      [cardElements]. *)
  cards : list (string * nat);
  modals : gmap string modal;
  activeModal : option string;
  globalFilters : global_filters;
  cache : gmap string json;
  loadingPromises : gmap string nat;
  cardElements : list card;
  (** [document.activeElement]. *)
  activeElement : option string;
  requests : list request;
  (** The promises that have settled. *)
  results : gmap nat settled;
  (** The reactions waiting for a promise, in the order of attachment. *)
  reactions : list (nat * reaction);
  (** The calls of [showToast]. *)
  toasts : list (string * string)
}.

Definition set_modals (f : gmap string modal -> gmap string modal) (s : dashboard) : dashboard :=
  Dashboard (config s) (cards s) (f (modals s)) (activeModal s) (globalFilters s) (cache s)
    (loadingPromises s) (cardElements s) (activeElement s) (requests s) (results s)
    (reactions s) (toasts s).

Definition setActiveModal (a : option string) (s : dashboard) : dashboard :=
  Dashboard (config s) (cards s) (modals s) a (globalFilters s) (cache s)
    (loadingPromises s) (cardElements s) (activeElement s) (requests s) (results s)
    (reactions s) (toasts s).

Definition set_globalFilters (g : global_filters) (s : dashboard) : dashboard :=
  Dashboard (config s) (cards s) (modals s) (activeModal s) g (cache s)
    (loadingPromises s) (cardElements s) (activeElement s) (requests s) (results s)
    (reactions s) (toasts s).

Definition set_cache (f : gmap string json -> gmap string json) (s : dashboard) : dashboard :=
  Dashboard (config s) (cards s) (modals s) (activeModal s) (globalFilters s) (f (cache s))
    (loadingPromises s) (cardElements s) (activeElement s) (requests s) (results s)
    (reactions s) (toasts s).

Definition set_loadingPromises (f : gmap string nat -> gmap string nat) (s : dashboard) : dashboard :=
  Dashboard (config s) (cards s) (modals s) (activeModal s) (globalFilters s) (cache s)
    (f (loadingPromises s)) (cardElements s) (activeElement s) (requests s) (results s)
    (reactions s) (toasts s).

Definition set_cardElements (f : list card -> list card) (s : dashboard) : dashboard :=
  Dashboard (config s) (cards s) (modals s) (activeModal s) (globalFilters s) (cache s)
    (loadingPromises s) (f (cardElements s)) (activeElement s) (requests s) (results s)
    (reactions s) (toasts s).

Definition set_activeElement (a : option string) (s : dashboard) : dashboard :=
  Dashboard (config s) (cards s) (modals s) (activeModal s) (globalFilters s) (cache s)
    (loadingPromises s) (cardElements s) a (requests s) (results s)
    (reactions s) (toasts s).

Definition set_requests (f : list request -> list request) (s : dashboard) : dashboard :=
  Dashboard (config s) (cards s) (modals s) (activeModal s) (globalFilters s) (cache s)
    (loadingPromises s) (cardElements s) (activeElement s) (f (requests s)) (results s)
    (reactions s) (toasts s).

Definition set_results (f : gmap nat settled -> gmap nat settled) (s : dashboard) : dashboard :=
  Dashboard (config s) (cards s) (modals s) (activeModal s) (globalFilters s) (cache s)
    (loadingPromises s) (cardElements s) (activeElement s) (requests s) (f (results s))
    (reactions s) (toasts s).

Definition set_reactions (f : list (nat * reaction) -> list (nat * reaction)) (s : dashboard) : dashboard :=
  Dashboard (config s) (cards s) (modals s) (activeModal s) (globalFilters s) (cache s)
    (loadingPromises s) (cardElements s) (activeElement s) (requests s) (results s)
    (f (reactions s)) (toasts s).

Definition showToast (message type : string) (s : dashboard) : dashboard :=
  Dashboard (config s) (cards s) (modals s) (activeModal s) (globalFilters s) (cache s)
    (loadingPromises s) (cardElements s) (activeElement s) (requests s) (results s)
    (reactions s) (toasts s ++ [(message, type)]).

(** ** The request/cache coordinator *)

Definition fetchReport (type : string) (opts : options) (s : dashboard) : dashboard * promise :=
  match config s !! type with
  | None => (s, Settled (Rejected (Error "Error" ("Reporte no configurado: " +:+ type))))
  | Some cfg =>
      let cacheKey := generateCacheKey (globalFilters s) type opts in
      match cache s !! cacheKey with
      | Some data => (s, Settled (Fulfilled data))
      | None =>
          let url := request_url cfg (globalFilters s) opts in
          match loadingPromises s !! cacheKey with
          | Some p => (s, InFlight p)
          | None =>
              let p := length (requests s) in
              (set_loadingPromises (insert cacheKey p)
                 (set_requests (fun l => l ++ [Request cacheKey url]) s),
               InFlight p)
          end
      end
  end.

Definition clearCache (s : dashboard) : dashboard :=
  set_cardElements
    (map (fun c => Card (trigger c) false (observed c) (card_loading c) (summary_value c)))
    (set_loadingPromises (fun _ => ∅) (set_cache (fun _ => ∅) s)).

(** ** Cards *)

Definition setCardLoading (i : nat) (isLoading : bool) (s : dashboard) : dashboard :=
  set_cardElements
    (alter (fun c =>
              Card (trigger c) (loaded c) (observed c) isLoading
                (match summary_value c with
                 | Some text => Some (if isLoading then "…" else text)
                 | None => None
                 end)) i)
    s.

Definition updateCardValue (i : nat) (value : string) (s : dashboard) : dashboard :=
  set_cardElements
    (alter (fun c =>
              Card (trigger c) (loaded c) (observed c) (card_loading c)
                (match summary_value c with
                 | Some _ => Some value
                 | None => None
                 end)) i)
    s.

(** [config.cardValue ? config.cardValue(data) : "—"]. *)
Definition card_value (cfg : descriptor) (data : json) : string :=
  match cardValue cfg with
  | Some f => f data
  | None => em_dash
  end.

(** ** Modal bookkeeping *)

Definition setLoading (isLoading : bool) (m : modal) : modal :=
  Modal (modal_type m) (modal_config m) (isOpen m) (loadedOnce m) (lastFilters m)
    (previousActive m) (is_visible m) (aria_hidden m)
    (Some (if isLoading then "true" else "false"))
    (filterNodes m) (summaryNodes m) (tableBody m) (emptyNode m).

Definition set_loadedOnce (m : modal) : modal :=
  Modal (modal_type m) (modal_config m) (isOpen m) true (lastFilters m)
    (previousActive m) (is_visible m) (aria_hidden m) (dataset_loading m)
    (filterNodes m) (summaryNodes m) (tableBody m) (emptyNode m).

Definition set_lastFilters (f : jsobj) (m : modal) : modal :=
  Modal (modal_type m) (modal_config m) (isOpen m) (loadedOnce m) f
    (previousActive m) (is_visible m) (aria_hidden m) (dataset_loading m)
    (filterNodes m) (summaryNodes m) (tableBody m) (emptyNode m).

Definition set_filterNodes (l : list filter_node) (m : modal) : modal :=
  Modal (modal_type m) (modal_config m) (isOpen m) (loadedOnce m) (lastFilters m)
    (previousActive m) (is_visible m) (aria_hidden m) (dataset_loading m)
    l (summaryNodes m) (tableBody m) (emptyNode m).

(** The bookkeeping of [open] (lines 616-619) and of [close] (lines
    631-633). *)
Definition show (focus : option string) (m : modal) : modal :=
  Modal (modal_type m) (modal_config m) true (loadedOnce m) (lastFilters m)
    focus true (Some "false") (dataset_loading m)
    (filterNodes m) (summaryNodes m) (tableBody m) (emptyNode m).

Definition hide (m : modal) : modal :=
  Modal (modal_type m) (modal_config m) false (loadedOnce m) (lastFilters m)
    (previousActive m) false (Some "true") (dataset_loading m)
    (filterNodes m) (summaryNodes m) (tableBody m) (emptyNode m).

(** ** Reactions *)

(** The chain a caller attached to a promise, run with the promise's
    result. *)
Definition react (rx : reaction) (r : settled) (s : dashboard) : dashboard :=
  match rx with
  | CardLeader i cfg cacheKey =>
      let s1 :=
        match r with
        | Fulfilled data =>
            updateCardValue i (card_value cfg data) (set_cache (insert cacheKey data) s)
        | Rejected _ =>
            showToast "No fue posible obtener el resumen del reporte." "error"
              (updateCardValue i em_dash s)
        end in
      setCardLoading i false (set_loadingPromises (delete cacheKey) s1)
  | CardFollower i cfg =>
      match r with
      | Fulfilled data => updateCardValue i (card_value cfg data) s
      | Rejected _ => updateCardValue i em_dash s
      end
  | ModalRun type =>
      match modals s !! type with
      | None => s
      | Some m =>
          let failed (m' : modal) :=
            showToast "Ocurrió un error al generar el reporte." "error"
              (set_modals (insert type (setLoading false m')) s) in
          match r with
          | Fulfilled data =>
              let '(m1, ok) := render data m in
              if ok then set_modals (insert type (setLoading false (set_loadedOnce m1))) s
              else failed m1
          | Rejected _ => failed m
          end
      end
  end.

(** [promise.then(...)]: the reaction waits, unless the promise has already
    settled. *)
Definition attach (pr : promise) (rx : reaction) (s : dashboard) : dashboard :=
  match pr with
  | Settled r => react rx r s
  | InFlight p =>
      match results s !! p with
      | Some r => react rx r s
      | None => set_reactions (fun l => l ++ [(p, rx)]) s
      end
  end.

(** Request [p] settles: the chain built by [fetchReport] runs (lines
    548-562), then the reactions of the callers. *)
Definition settle (p : nat) (b : network_behaviour) (s : dashboard) : dashboard :=
  match requests s !! p, results s !! p, request_outcome b with
  | Some rq, None, Some r =>
      let s1 :=
        match r with
        | Fulfilled data => set_cache (insert (req_key rq) data) s
        | Rejected _ => s
        end in
      let s2 := set_loadingPromises (delete (req_key rq)) s1 in
      let s3 := set_results (insert p r) s2 in
      let waiting := filter (fun x => x.1 = p) (reactions s3) in
      let s4 := set_reactions (filter (fun x => x.1 ≠ p)) s3 in
      fold_left (fun acc x => react x.2 r acc) waiting s4
  | _, _, _ => s
  end.

Definition loadCardData (i : nat) (type : string) (s : dashboard) : dashboard :=
  match config s !! type with
  | None => s
  | Some cfg =>
      let opts := Options None true in
      let cacheKey := generateCacheKey (globalFilters s) type opts in
      match cache s !! cacheKey with
      | Some cachedData => updateCardValue i (card_value cfg cachedData) s
      | None =>
          match loadingPromises s !! cacheKey with
          | Some p => attach (InFlight p) (CardFollower i cfg) s
          | None =>
              let '(s1, pr) := fetchReport type opts (setCardLoading i true s) in
              let s2 :=
                match pr with
                | InFlight p => set_loadingPromises (insert cacheKey p) s1
                | Settled _ => s1
                end in
              attach pr (CardLeader i cfg cacheKey) s2
          end
      end
  end.

Definition refreshCards (s : dashboard) : dashboard :=
  fold_left (fun acc tc => loadCardData tc.2 tc.1 acc) (cards s) s.

(** ** The report modal *)

Definition collectFilters (m : modal) : jsobj :=
  fold_left
    (fun data node =>
       if decide (data_filter node = "") then data
       else obj_set (data_filter node) (VStr (default "" (node_value node))) data)
    (filterNodes m) [].

(** [!node.value]. *)
Definition no_value (node : filter_node) : bool :=
  match node_value node with
  | Some v => bool_decide (v = "")
  | None => true
  end.

Definition sync_node (key value : string) (node : filter_node) : filter_node :=
  if bool_decide (data_filter node = key) && nonempty value && no_value node
  then FilterNode (data_filter node) (Some value)
  else node.

Definition syncWithGlobalFilters (g : global_filters) (m : modal) : modal :=
  if bool_decide (supportsRange (modal_config m) = Some false) then m
  else
    set_filterNodes
      (map (fun node => sync_node "end" (gf_end g) (sync_node "start" (gf_start g) node))
           (filterNodes m))
      m.

Definition runReport (type : string) (s : dashboard) : dashboard :=
  match modals s !! type with
  | None => s
  | Some m =>
      let filters := collectFilters m in
      let m1 := set_lastFilters (obj_spread filters) (setLoading true m) in
      let '(s1, pr) :=
        fetchReport (modal_type m) (Options (Some filters) false)
          (set_modals (insert type m1) s) in
      attach pr (ModalRun type) s1
  end.

(** [ReportModal.open]. *)
Definition modal_open (type : string) (s : dashboard) : dashboard :=
  match modals s !! type with
  | None => s
  | Some m =>
      if isOpen m then s
      else
        let m1 := syncWithGlobalFilters (globalFilters s) (show (activeElement s) m) in
        let s1 := setActiveModal (Some type) (set_modals (insert type m1) s) in
        if loadedOnce m then s1 else runReport type s1
  end.

(** [ReportModal.close]. *)
Definition modal_close (type : string) (s : dashboard) : dashboard :=
  match modals s !! type with
  | None => s
  | Some m =>
      if isOpen m then
        let s1 := setActiveModal None (set_modals (insert type (hide m)) s) in
        match previousActive m with
        | Some el => set_activeElement (Some el) s1
        | None => s1
        end
      else s
  end.

(** [ReportDashboard.openModal]. *)
Definition openModal (type : string) (s : dashboard) : dashboard :=
  modal_open type s.

(** ** Start-up *)

Record modal_element := ModalElement {
  (** [data-report-modal-type]. *)
  el_type : string;
  el_filterNodes : list filter_node;
  el_summaryNodes : list summary_node;
  el_tableBody : option table_body;
  el_emptyNode : option bool
}.

(** [new ReportModal(element, type, dashboard)]. *)
Definition ReportModal (el : modal_element) (cfg : descriptor) : modal :=
  Modal (el_type el) cfg false false [] None false None None
    (el_filterNodes el) (el_summaryNodes el) (el_tableBody el) (el_emptyNode el).

(** [Map.prototype.set] on a map kept in insertion order. *)
Fixpoint cards_set (type : string) (i : nat) (l : list (string * nat)) : list (string * nat) :=
  match l with
  | [] => [(type, i)]
  | (t, j) :: r => if decide (t = type) then (t, i) :: r else (t, j) :: cards_set type i r
  end.

Definition initCards (config : gmap string descriptor) (cardElements : list card) : list (string * nat) :=
  fold_left
    (fun acc ic =>
       match config !! trigger ic.2 with
       | Some _ => cards_set (trigger ic.2) ic.1 acc
       | None => acc
       end)
    (imap (fun i c => (i, c)) cardElements) [].

Definition initModals (config : gmap string descriptor) (modalElements : list modal_element) : gmap string modal :=
  fold_left
    (fun acc el =>
       match config !! el_type el with
       | Some cfg => <[el_type el := ReportModal el cfg]> acc
       | None => acc
       end)
    modalElements ∅.

(** [new ReportDashboard(config)] followed by [init()]; [lazy] tells whether
    the window has an [IntersectionObserver], which then observes every
    card. *)
Definition init (config : gmap string descriptor) (lazy : bool)
    (cardElements : list card) (modalElements : list modal_element)
    (focus : option string) : dashboard :=
  Dashboard config (initCards config cardElements) (initModals config modalElements)
    None (GlobalFilters "" "") ∅ ∅
    (map (fun c => Card (trigger c) (loaded c) lazy (card_loading c) (summary_value c))
         cardElements)
    focus [] ∅ [] [].

(** ** Events *)

Inductive event :=
(** The observer reports that card [i] intersects the viewport. *)
| Intersecting (i : nat)
(** The timer of the fallback without an observer fires. *)
| RefreshTimer
(** A click on the range button; the values of the two range inputs. *)
| ApplyRange (start finish : option string)
| ClickCard (i : nat)
(** A click on a close button or on the backdrop of a modal. *)
| ClickClose (type : string)
| KeyEscape
| ClickRun (type : string)
(** The user edits filter [i] of a modal. *)
| Input (type : string) (i : nat) (value : string)
(** The network settles request [p]. *)
| Settle (p : nat) (b : network_behaviour).

Definition mark_loaded (i : nat) (s : dashboard) : dashboard :=
  set_cardElements
    (alter (fun c => Card (trigger c) true false (card_loading c) (summary_value c)) i) s.

Definition step (e : event) (s : dashboard) : dashboard :=
  match e with
  | Intersecting i =>
      match cardElements s !! i with
      | Some c =>
          if observed c && nonempty (trigger c) && negb (loaded c)
          then mark_loaded i (loadCardData i (trigger c) s)
          else s
      | None => s
      end
  | RefreshTimer => refreshCards s
  | ApplyRange start finish =>
      let g := GlobalFilters (default "" start) (default "" finish) in
      showToast "Rango aplicado correctamente." "success"
        (refreshCards (clearCache (set_globalFilters g s)))
  | ClickCard i =>
      match cardElements s !! i with
      | Some c =>
          match config s !! trigger c with
          | Some _ => openModal (trigger c) s
          | None => s
          end
      | None => s
      end
  | ClickClose type => modal_close type s
  | KeyEscape =>
      match activeModal s with
      | Some type => modal_close type s
      | None => s
      end
  | ClickRun type => runReport type s
  | Input type i value =>
      set_modals
        (alter (fun m =>
                  set_filterNodes
                    (alter (fun node => FilterNode (data_filter node) (Some value)) i
                       (filterNodes m)) m) type)
        s
  | Settle p b => settle p b s
  end.

Definition run (trace : list event) (s : dashboard) : dashboard :=
  fold_left (fun acc e => step e acc) trace s.

(** * Properties *)

(** ** Strings *)

#[local] Arguments String.append : simpl nomatch.

Lemma append_nil_r (s : string) : s +:+ "" = s.
Proof. induction s as [|c s IH]; simpl; [done | by f_equal]. Qed.

Lemma append_assoc (a b c : string) : (a +:+ b) +:+ c = a +:+ (b +:+ c).
Proof. induction a as [|x a IH]; simpl; [done | by f_equal]. Qed.

(** ** Plain objects *)

Section Objects.
Implicit Types (o : jsobj) (k : string) (v : jsval).

Lemma obj_get_None o k : obj_get o k = None ↔ k ∉ obj_keys o.
Proof.
  induction o as [|[k' v'] o IH]; simpl.
  - split; [intros _; apply not_elem_of_nil | done].
  - rewrite not_elem_of_cons. destruct (decide (k' = k)) as [->|Hne].
    + split; [done | intros [? _]; done].
    + rewrite IH. split; [intros ?; split; [congruence | done] | intros [_ ?]; done].
Qed.

Lemma obj_get_elem_of o k v : obj_get o k = Some v → (k, v) ∈ o.
Proof.
  induction o as [|[k' v'] o IH]; simpl; [done |].
  destruct (decide (k' = k)) as [->|Hne].
  - intros [= ->]. apply list_elem_of_here.
  - intros H. apply list_elem_of_further. by apply IH.
Qed.

Lemma elem_of_obj_get o k v : NoDup (obj_keys o) → (k, v) ∈ o → obj_get o k = Some v.
Proof.
  induction o as [|[k' v'] o IH]; simpl; intros Hnd Hin.
  - by apply elem_of_nil in Hin.
  - apply NoDup_cons in Hnd as [Hk' Hnd]. apply elem_of_cons in Hin as [[= -> ->]|Hin].
    + by rewrite decide_True.
    + destruct (decide (k' = k)) as [->|Hne]; [| by apply IH].
      exfalso. apply Hk'. by apply (list_elem_of_fmap_2 fst _ (k, v)).
Qed.

Lemma obj_keys_replace k v o : obj_keys (obj_replace k v o) = obj_keys o.
Proof.
  induction o as [|[k' v'] o IH]; simpl; [done |].
  destruct (decide (k' = k)); simpl; [done | by rewrite IH].
Qed.

Lemma obj_get_replace k v o k' :
  obj_get (obj_replace k v o) k' =
  if decide (k = k')
  then match obj_get o k with Some _ => Some v | None => None end
  else obj_get o k'.
Proof.
  induction o as [|[k0 v0] o IH]; cbn [obj_get obj_replace].
  - by destruct (decide (k = k')).
  - destruct (decide (k0 = k)) as [->|Hne]; cbn [obj_get].
    + by destruct (decide (k = k')).
    + rewrite IH. destruct (decide (k0 = k')) as [->|Hne']; [| done].
      by rewrite decide_False by done.
Qed.

Lemma obj_keys_insert_index n k v o :
  obj_keys (obj_insert_index n k v o) ≡ₚ k :: obj_keys o.
Proof.
  induction o as [|[k' v'] o IH]; cbn [obj_insert_index]; [done |].
  destruct (array_index k') as [n'|]; [| done].
  destruct (n' <? n)%N; [| done].
  unfold obj_keys in *. rewrite !fmap_cons, IH. apply Permutation_swap.
Qed.

Lemma obj_get_insert_index n k v o k' :
  obj_get o k = None →
  obj_get (obj_insert_index n k v o) k' =
  if decide (k = k') then Some v else obj_get o k'.
Proof.
  induction o as [|[k0 v0] o IH]; cbn [obj_get obj_insert_index]; intros Hk; [done |].
  destruct (decide (k0 = k)) as [->|Hne]; [done |].
  assert (Hhead : obj_get ((k, v) :: (k0, v0) :: o) k'
                  = if decide (k = k') then Some v
                    else if decide (k0 = k') then Some v0 else obj_get o k') by done.
  destruct (array_index k0) as [n0|]; [destruct (n0 <? n)%N |]; try exact Hhead.
  cbn [obj_get]. rewrite IH by done.
  destruct (decide (k0 = k')) as [->|?]; [| done].
  by rewrite decide_False by done.
Qed.

Lemma obj_get_snoc o k v k' :
  obj_get o k = None →
  obj_get (o ++ [(k, v)]) k' = if decide (k = k') then Some v else obj_get o k'.
Proof.
  induction o as [|[k0 v0] o IH]; cbn [obj_get app]; intros Hk; [done |].
  destruct (decide (k0 = k)) as [->|Hne]; [done |].
  rewrite IH by done. destruct (decide (k0 = k')) as [->|?]; [| done].
  by rewrite decide_False by done.
Qed.

(** Reading after an assignment. *)
Lemma obj_get_set k v o k' :
  obj_get (obj_set k v o) k' = if decide (k = k') then Some v else obj_get o k'.
Proof.
  unfold obj_set. destruct (obj_get o k) as [v0|] eqn:Hk.
  - rewrite obj_get_replace, Hk. by destruct (decide (k = k')).
  - destruct (array_index k); [by apply obj_get_insert_index | by apply obj_get_snoc].
Qed.

(** An assignment never duplicates a key. *)
Lemma obj_set_NoDup k v o : NoDup (obj_keys o) → NoDup (obj_keys (obj_set k v o)).
Proof.
  intros Hnd. unfold obj_set. destruct (obj_get o k) as [v0|] eqn:Hk.
  - by rewrite obj_keys_replace.
  - apply obj_get_None in Hk. destruct (array_index k).
    + rewrite obj_keys_insert_index. by apply NoDup_cons.
    + unfold obj_keys in *. rewrite fmap_app.
      apply NoDup_app. split; [done |]. split; [| apply NoDup_singleton].
      intros x Hx Hx'. apply list_elem_of_singleton in Hx'. by subst.
Qed.

Lemma obj_assign_NoDup source target :
  NoDup (obj_keys target) → NoDup (obj_keys (obj_assign target source)).
Proof.
  unfold obj_assign. revert target.
  induction source as [|[k v] source IH]; cbn [fold_left]; intros target Hnd; [done |].
  apply IH. by apply obj_set_NoDup.
Qed.

Lemma obj_spread_NoDup source : NoDup (obj_keys (obj_spread source)).
Proof. apply obj_assign_NoDup. apply NoDup_nil_2. Qed.

(** Two objects with the same keys in the same order and the same value
    under every key are the same object. *)
Lemma obj_ext o1 o2 :
  NoDup (obj_keys o1) →
  obj_keys o1 = obj_keys o2 →
  (∀ k, obj_get o1 k = obj_get o2 k) →
  o1 = o2.
Proof.
  revert o2. induction o1 as [|[k1 v1] o1 IH]; intros [|[k2 v2] o2];
    intros Hnd Hkeys Hget; try done.
  unfold obj_keys in *. rewrite !fmap_cons in Hkeys, Hnd. cbn [fst] in Hkeys, Hnd.
  injection Hkeys as -> Hkeys. apply NoDup_cons in Hnd as [Hk2 Hnd].
  pose proof (Hget k2) as Hhead. cbn [obj_get] in Hhead.
  rewrite !decide_True in Hhead by done.
  injection Hhead as ->. f_equal. apply IH; [done | done |].
  intros k. specialize (Hget k). cbn [obj_get] in Hget.
  destruct (decide (k2 = k)) as [<-|Hne]; [| done].
  transitivity (@None jsval); [| symmetry]; apply obj_get_None; [done |].
  exact (eq_ind _ (λ l, k2 ∉ l) Hk2 _ Hkeys).
Qed.
End Objects.

(** ** Cache keys *)

(** The key starts with the type and the literal of the filter source. *)
Lemma generateCacheKey_prefix g type opts :
  ∃ rest,
    generateCacheKey g type opts =
    type +:+ "-" +:+ (if useGlobalFilters opts then "global" else "custom") +:+ rest.
Proof. unfold generateCacheKey. eauto. Qed.

(** C10.  For every report type, a key derived with [useGlobalFilters] (the
    card summary of [loadCardData]) differs from every key derived without it
    (the modal run of [runReport], which passes its collected filters),
    whatever the filters and whatever the global range at either moment: the
    segment after the type reads [global] in one and [custom] in the other.
    A card and its modal therefore never meet in a slot of the cache or of
    the in-flight registry. *)
Theorem card_and_modal_keys_differ (type : string) (g g' : global_filters)
    (card_filters : option jsobj) (modal_filters : option jsobj) :
  generateCacheKey g type (Options card_filters true)
  ≠ generateCacheKey g' type (Options modal_filters false).
Proof.
  unfold generateCacheKey; simpl. intros Heq.
  apply (String.app_inj type) in Heq. discriminate Heq.
Qed.

(** C4, as the code has it.  The key is a function of the enumeration of the
    filter object: two filter objects with the same keys in the same order
    and the same value under every key get the same cache key. *)
Theorem generateCacheKey_same_order (g : global_filters) (type : string)
    (useGlobal : bool) (f1 f2 : jsobj) :
  NoDup (obj_keys f1) →
  obj_keys f1 = obj_keys f2 →
  (∀ k, obj_get f1 k = obj_get f2 k) →
  generateCacheKey g type (Options (Some f1) useGlobal)
  = generateCacheKey g type (Options (Some f2) useGlobal).
Proof. intros Hnd Hkeys Hget. by rewrite (obj_ext f1 f2). Qed.

Lemma generateCacheKey_same_order_witness :
  let f := obj_set "status" (VStr "late") (obj_set "search" (VStr "tv") []) in
  generateCacheKey (GlobalFilters "" "") "product-sales" (Options (Some f) false)
  = generateCacheKey (GlobalFilters "" "") "product-sales" (Options (Some f) false).
Proof.
  apply generateCacheKey_same_order; [| reflexivity | reflexivity].
  apply (bool_decide_unpack _). by vm_compute.
Defined.

(** C4 as stated fails: the same two pairs assigned in the other order give
    another key. *)
Lemma generateCacheKey_order_sensitive :
  let f1 := obj_set "status" (VStr "late") (obj_set "search" (VStr "tv") []) in
  let f2 := obj_set "search" (VStr "tv") (obj_set "status" (VStr "late") []) in
  (∀ k, obj_get f1 k = obj_get f2 k)
  ∧ generateCacheKey (GlobalFilters "" "") "product-sales" (Options (Some f1) false)
    ≠ generateCacheKey (GlobalFilters "" "") "product-sales" (Options (Some f2) false).
Proof.
  split.
  - intros k. rewrite !obj_get_set. simpl.
    destruct (decide ("status" = k)) as [<-|?]; [done |].
    by destruct (decide ("search" = k)).
  - vm_compute. discriminate.
Qed.

(** ** The query string *)

Definition param_of (kv : string * jsval) : option (string * string) :=
  if truthy kv.2 then Some (kv.1, ToString kv.2) else None.

Lemma fetch_params_omap (f : jsobj) : fetch_params f = omap param_of f.
Proof.
  unfold fetch_params. rewrite <- (app_nil_l (omap param_of f)).
  generalize (@nil (string * string)) as acc.
  induction f as [|[k v] f IH]; intros acc; cbn [fold_left omap list_omap].
  - by rewrite app_nil_r.
  - rewrite IH. unfold param_of at 2, params_append. cbn [fst snd].
    destruct (truthy v); [by rewrite <- app_assoc | done].
Qed.

Lemma elem_of_fetch_params (f : jsobj) (n x : string) :
  (n, x) ∈ fetch_params f ↔ ∃ v, (n, v) ∈ f ∧ truthy v = true ∧ x = ToString v.
Proof.
  rewrite fetch_params_omap, list_elem_of_omap. unfold param_of. split.
  - intros [[k v] [Hin Hp]]. cbn [fst snd] in Hp.
    destruct (truthy v) eqn:Ht; [| done]. simplify_eq. eauto.
  - intros (v & Hin & Ht & ->). exists (n, v). cbn [fst snd]. by rewrite Ht.
Qed.

Lemma merged_filters_NoDup cfg g opts : NoDup (obj_keys (merged_filters cfg g opts)).
Proof.
  unfold merged_filters.
  assert (H0 : NoDup (obj_keys (obj_spread (default [] (defaultFilters cfg)))))
    by apply obj_spread_NoDup.
  destruct (filters opts); [apply obj_assign_NoDup |];
    destruct (useGlobalFilters opts && _); try done;
    destruct (nonempty (gf_start g)), (nonempty (gf_end g));
    auto using obj_set_NoDup.
Qed.

(** The cached variant names a parameter after the key of the merged object;
    it is there exactly when the merged value of the key is truthy. *)
Lemma fetch_params_names cfg g opts (k : string) :
  let merged := merged_filters cfg g opts in
  k ∈ (fetch_params merged).*1 ↔ ∃ v, obj_get merged k = Some v ∧ truthy v = true.
Proof.
  intros merged. rewrite list_elem_of_fmap. split.
  - intros [[n x] [-> Hin]]. apply elem_of_fetch_params in Hin as (v & Hin & Ht & _).
    exists v. split; [| done]. apply elem_of_obj_get; [apply merged_filters_NoDup | done].
  - intros (v & Hget & Ht). exists (k, ToString v). split; [done |].
    apply elem_of_fetch_params. exists v. eauto using obj_get_elem_of.
Qed.

(** *** The eager variant *)

Lemma elem_of_params_set (name value : string) (p : URLSearchParams) (y : string * string) :
  y ∈ params_set name value p → y = (name, value) ∨ y ∈ p.
Proof.
  induction p as [|[n v] p IH]; cbn [params_set].
  - intros ->%list_elem_of_singleton. by left.
  - destruct (decide (n = name)) as [->|Hne].
    + intros [->|Hin]%elem_of_cons; [by left |].
      right. apply list_elem_of_further. by apply list_elem_of_filter in Hin as [_ ?].
    + intros [->|Hin]%elem_of_cons; [right; apply list_elem_of_here |].
      destruct (IH Hin) as [->|?]; [by left | right; by apply list_elem_of_further].
Qed.

(** Every parameter of the eager variant comes from an entry that is not
    blank, under the name [paramMap] gives its key. *)
Lemma Eager_fetch_params_origin cfg (f : jsobj) (n x : string) :
  (n, x) ∈ Eager.fetch_params cfg f →
  ∃ k v, (k, v) ∈ f ∧ Eager.is_blank v = false ∧ n = param_name cfg k ∧ x = ToString v.
Proof.
  unfold Eager.fetch_params.
  assert (Hgen : ∀ acc,
    (n, x) ∈ fold_left
      (λ params kv,
         if Eager.is_blank kv.2 then params
         else params_set (param_name cfg kv.1) (ToString kv.2) params) f acc →
    (n, x) ∈ acc ∨
    ∃ k v, (k, v) ∈ f ∧ Eager.is_blank v = false ∧ n = param_name cfg k ∧ x = ToString v).
  { induction f as [|[k v] f IH]; intros acc; cbn [fold_left fst snd]; [by left |].
    intros Hin. destruct (IH _ Hin) as [Hacc|(k' & v' & Hin' & ?)].
    - destruct (Eager.is_blank v) eqn:Hb; [by left |].
      apply elem_of_params_set in Hacc as [[= -> ->]|?]; [| by left].
      right. exists k, v. split; [apply list_elem_of_here | done].
    - right. exists k', v'. split; [by apply list_elem_of_further | done]. }
  intros Hin. destruct (Hgen [] Hin) as [Hnil|?]; [by apply elem_of_nil in Hnil | done].
Qed.

(** Blank entries leave no trace in the query of the eager variant. *)
Lemma Eager_fetch_params_skips_blank cfg (f : jsobj) :
  Eager.fetch_params cfg f
  = Eager.fetch_params cfg (filter (λ kv, Eager.is_blank kv.2 = false) f).
Proof.
  unfold Eager.fetch_params. generalize (@nil (string * string)) as acc.
  induction f as [|[k v] f IH]; intros acc; [done |].
  rewrite (filter_cons (λ kv : string * jsval, Eager.is_blank kv.2 = false)).
  cbn [fold_left fst snd]. destruct (Eager.is_blank v) eqn:Hb.
  - rewrite decide_False by done. apply IH.
  - rewrite decide_True by done. cbn [fold_left fst snd]. rewrite Hb. apply IH.
Qed.

(** C5.  When [fetchReport] issues a request, the URL is the endpoint, a
    question mark and the serialization of parameters that hold exactly the
    keys of the merged filters whose value is truthy: a key whose merged
    value is the empty string, [null] or [undefined] is not among the
    parameter names, and every parameter carries the value of a non-empty
    entry.  The eager variant likewise builds its parameters from the
    entries that are not blank. *)
Theorem query_string_has_only_nonempty_filters (s : dashboard) (type : string)
    (opts : options) (cfg : descriptor) :
  let cacheKey := generateCacheKey (globalFilters s) type opts in
  let merged := merged_filters cfg (globalFilters s) opts in
  let params := fetch_params merged in
  config s !! type = Some cfg →
  cache s !! cacheKey = None →
  loadingPromises s !! cacheKey = None →
  (∃ s', fetchReport type opts s = (s', InFlight (length (requests s)))
         ∧ requests s' = requests s
             ++ [Request cacheKey (endpoint cfg +:+ "?" +:+ params_toString params)])
  ∧ (∀ k v, obj_get merged k = Some v →
            v = VStr "" ∨ v = VNull ∨ v = VUndefined → k ∉ params.*1)
  ∧ (∀ n x, (n, x) ∈ params →
            ∃ v, obj_get merged n = Some v ∧ truthy v = true ∧ x = ToString v)
  ∧ (let eager := Eager.merged_filters cfg (globalFilters s) opts in
     Eager.fetch_params cfg eager
     = Eager.fetch_params cfg (filter (λ kv, Eager.is_blank kv.2 = false) eager)
     ∧ ∀ n x, (n, x) ∈ Eager.fetch_params cfg eager →
              ∃ k v, (k, v) ∈ eager ∧ Eager.is_blank v = false
                     ∧ n = param_name cfg k ∧ x = ToString v).
Proof.
  intros cacheKey merged params Hcfg Hcache Hreg. repeat split.
  - unfold fetchReport. fold cacheKey. rewrite Hcfg, Hcache, Hreg. eauto.
  - intros k v Hget Hblank Hin. apply fetch_params_names in Hin as (v' & Hget' & Ht).
    fold merged in Hget'. rewrite Hget in Hget'. injection Hget' as <-.
    by destruct Hblank as [->|[->| ->]].
  - intros n x Hin. apply elem_of_fetch_params in Hin as (v & Hin & Ht & ->).
    exists v. split; [| done]. apply elem_of_obj_get; [apply merged_filters_NoDup | done].
  - apply Eager_fetch_params_skips_blank.
  - apply Eager_fetch_params_origin.
Qed.

(** ** A sample page

    One card for the total sales and one modal for the sales by product,
    with a date filter left empty and a search text; it serves the concrete
    runs below. *)

Definition sample_registry : gmap string descriptor :=
  REPORT_CONFIG (λ _ _, em_dash) (λ _ _ _, em_dash) (λ _ _, "<tr></tr>").

Definition sample_page : dashboard :=
  init sample_registry true
    [Card "total-sales" false false false (Some ""); Card "product-sales" false false false (Some "")]
    [ModalElement "product-sales"
       [FilterNode "start" (Some ""); FilterNode "search" (Some "tv")]
       [SummaryNode "total" ""]
       (Some (TableBody (Some 5) ""))
       (Some true)]
    None.

Definition sample_filters : jsobj :=
  obj_set "search" (VStr "tv") (obj_set "start" (VStr "") []).

Lemma query_string_has_only_nonempty_filters_witness :
  ∃ cfg,
    config sample_page !! "product-sales" = Some cfg
    ∧ "start" ∉ (fetch_params
                   (merged_filters cfg (globalFilters sample_page)
                      (Options (Some sample_filters) false))).*1.
Proof.
  eexists. split; [reflexivity |].
  destruct (query_string_has_only_nonempty_filters sample_page "product-sales"
              (Options (Some sample_filters) false) _ eq_refl eq_refl eq_refl)
    as (_ & Hblank & _).
  exact (Hblank "start" (VStr "") eq_refl (or_introl eq_refl)).
Defined.

(** C1 on the cached variant.  [paramMap] of the product report maps
    [search] to [q], and the eager variant sends an explicit [search] filter
    as [q]; the cached variant, which maps only the two keys of the global
    range, sends it under its own name. *)
Theorem fetchReport_explicit_filter_keeps_own_name
    (card_text : string → json → string)
    (summary_text : string → string → json → string)
    (row_markup : string → json → string) :
  let REPORT_CONFIG := REPORT_CONFIG card_text summary_text row_markup in
  let s := init REPORT_CONFIG true [] [] None in
  let opts := Options (Some (obj_set "search" (VStr "tv") [])) false in
  ∃ cfg,
    REPORT_CONFIG !! "product-sales" = Some cfg
    ∧ param_name cfg "search" = "q"
    ∧ (fetchReport "product-sales" opts s).2 = InFlight 0
    ∧ req_url <$> requests (fetchReport "product-sales" opts s).1
      = ["/app/reportes/ventas-producto/?search=tv"]
    ∧ Eager.fetchReport REPORT_CONFIG (globalFilters s) "product-sales" opts
      = inr "/app/reportes/ventas-producto/?q=tv".
Proof.
  intros config s opts. eexists. split; [reflexivity |].
  repeat split; by vm_compute.
Qed.

(** ** The empty state of the table *)

Fixpoint count_char (c : Ascii.ascii) (s : string) : nat :=
  match s with
  | EmptyString => 0
  | String x r => (if decide (x = c) then 1 else 0) + count_char c r
  end.

Lemma count_char_append c (a b : string) :
  count_char c (a +:+ b) = count_char c a + count_char c b.
Proof. induction a as [|x a IH]; simpl; [done | rewrite IH; lia]. Qed.

Lemma count_char_concat_map c (f : Ascii.ascii → string) (s : string) :
  (∀ x, x ≠ c → count_char c (f x) = 0) →
  (count_char c s = 0 ∨ count_char c (f c) = 0) →
  count_char c (concat_map f s) = 0.
Proof.
  intros Hf. induction s as [|x s IH]; cbn [concat_map count_char]; [done |].
  rewrite count_char_append. destruct (decide (x = c)) as [->|Hne].
  - intros [?|Hc]; [lia |]. rewrite Hc, IH; [done | by right].
  - intros Hs. rewrite Hf, IH; [done | | done].
    destruct Hs as [?|?]; [left; lia | by right].
Qed.

(** A replacement whose text does not hold [c] leaves no [c] when it
    replaces [c] itself, and adds none otherwise. *)
Lemma count_char_replaceAll c c' (r s : string) :
  count_char c r = 0 →
  c' = c ∨ count_char c s = 0 →
  count_char c (replaceAll c' r s) = 0.
Proof.
  intros Hr Hs. unfold replaceAll. apply count_char_concat_map.
  - intros x Hx. destruct (decide (x = c')); [done |].
    cbn [count_char]. by rewrite decide_False.
  - destruct Hs as [->|?]; [right | by left]. by rewrite decide_True.
Qed.

(** The escaped text holds none of the characters that open or close a tag
    or an attribute value. *)
Lemma escapeHtml_no_markup (c : Ascii.ascii) (value : string) :
  c ∈ ["<"%char; ">"%char; Ascii.ascii_of_nat 34; "'"%char] →
  count_char c (escapeHtml value) = 0.
Proof.
  intros Hc. unfold escapeHtml.
  repeat (apply elem_of_cons in Hc as [->|Hc]); [| | | | by apply elem_of_nil in Hc].
  - do 3 (apply count_char_replaceAll; [done | right]).
    apply count_char_replaceAll; [done | by left].
  - do 2 (apply count_char_replaceAll; [done | right]).
    apply count_char_replaceAll; [done | by left].
  - apply count_char_replaceAll; [done | right].
    apply count_char_replaceAll; [done | by left].
  - apply count_char_replaceAll; [done | by left].
Qed.




(** Every report of the registry has a row extractor and a message for the
    empty state. *)
Lemma REPORT_CONFIG_emptyMessage card_text summary_text row_markup type cfg :
  REPORT_CONFIG card_text summary_text row_markup !! type = Some cfg →
  (∃ field, rowsExtractor cfg = Some (rows_in field))
  ∧ ∃ msg, emptyMessage cfg = Some msg ∧ msg ≠ "".
Proof.
  unfold REPORT_CONFIG. intros H. apply elem_of_list_to_map_2 in H.
  unfold report in H.
  repeat (apply elem_of_cons in H as [[= -> ->]|H]);
    [.. | by apply elem_of_nil in H]; (split; [by eexists | by eexists]).
Qed.



(** ** What an operation leaves alone *)

(** [derived m m']: [m'] is the modal [m] after some rendering or
    bookkeeping; it keeps its type and descriptor and does not forget a
    successful load. *)
Definition derived (m m' : modal) : Prop :=
  modal_type m' = modal_type m
  ∧ modal_config m' = modal_config m
  ∧ isOpen m' = isOpen m
  ∧ (loadedOnce m = true → loadedOnce m' = true).

Lemma derived_refl m : derived m m.
Proof. by repeat split. Qed.

Lemma derived_trans m1 m2 m3 : derived m1 m2 → derived m2 m3 → derived m1 m3.
Proof.
  intros (? & ? & ? & ?) (? & ? & ? & ?). repeat split; try congruence. auto.
Qed.

Lemma render_derived data m : derived m (render data m).1.
Proof.
  unfold render, renderTable, renderSummary.
  destruct (tableBody _); [| by repeat split].
  destruct (extract_rows _ _); [by repeat split |].
  destruct (render_rows _ _); by repeat split.
Qed.

(** The fields a reaction never writes. *)
Lemma react_static rx r s :
  config (react rx r s) = config s
  ∧ globalFilters (react rx r s) = globalFilters s
  ∧ requests (react rx r s) = requests s
  ∧ results (react rx r s) = results s
  ∧ reactions (react rx r s) = reactions s
  ∧ activeModal (react rx r s) = activeModal s
  ∧ activeElement (react rx r s) = activeElement s.
Proof.
  destruct rx as [i cfg K|i cfg|type]; cbn [react].
  - by destruct r.
  - by destruct r.
  - destruct (modals s !! type); [| done]. destruct r; [| done].
    by destruct (render data m) as [m1 []].
Qed.

(** What a reaction writes in the cache and in the in-flight registry. *)
Definition reaction_cache (rx : reaction) (r : settled) (c : gmap string json) : gmap string json :=
  match rx, r with
  | CardLeader _ _ cacheKey, Fulfilled data => <[cacheKey := data]> c
  | _, _ => c
  end.

Definition reaction_registry (rx : reaction) (l : gmap string nat) : gmap string nat :=
  match rx with
  | CardLeader _ _ cacheKey => delete cacheKey l
  | _ => l
  end.

Lemma react_cache rx r s : cache (react rx r s) = reaction_cache rx r (cache s).
Proof.
  destruct rx as [i cfg K|i cfg|type]; cbn [react reaction_cache].
  - by destruct r.
  - by destruct r.
  - destruct (modals s !! type); [| by destruct r]. destruct r; [| done].
    by destruct (render data m) as [m1 []].
Qed.

Lemma react_loadingPromises rx r s :
  loadingPromises (react rx r s) = reaction_registry rx (loadingPromises s).
Proof.
  destruct rx as [i cfg K|i cfg|type]; cbn [react reaction_registry].
  - by destruct r.
  - by destruct r.
  - destruct (modals s !! type); [| done]. destruct r; [| done].
    by destruct (render data m) as [m1 []].
Qed.

Lemma react_modals rx r s type m :
  modals s !! type = Some m →
  ∃ m', modals (react rx r s) !! type = Some m' ∧ derived m m'.
Proof.
  intros Hm. destruct rx as [i cfg K|i cfg|type']; cbn [react].
  - exists m. split; [by destruct r | apply derived_refl].
  - exists m. split; [by destruct r | apply derived_refl].
  - destruct (modals s !! type') as [m0|] eqn:Hm0; [| eauto using derived_refl].
    destruct (decide (type' = type)) as [->|Hne].
    + assert (m0 = m) as -> by congruence.
      destruct r as [data|e].
      * pose proof (render_derived data m) as Hd.
        destruct (render data m) as [m1 []]; cbn [fst] in Hd;
          (eexists; split; [apply lookup_insert_eq |]);
          destruct Hd as (? & ? & ? & ?); by repeat split.
      * eexists; split; [apply lookup_insert_eq | by repeat split].
    + exists m. split; [| apply derived_refl].
      destruct r as [data|e]; [destruct (render data m0) as [m1 []] |];
        cbn; by rewrite lookup_insert_ne.
Qed.

(** The reactions of a settled promise, run in order. *)
Definition run_reactions (r : settled) (waiting : list (nat * reaction)) (s : dashboard) : dashboard :=
  fold_left (λ acc x, react x.2 r acc) waiting s.

Lemma run_reactions_static r waiting s :
  config (run_reactions r waiting s) = config s
  ∧ globalFilters (run_reactions r waiting s) = globalFilters s
  ∧ requests (run_reactions r waiting s) = requests s
  ∧ results (run_reactions r waiting s) = results s
  ∧ reactions (run_reactions r waiting s) = reactions s
  ∧ activeModal (run_reactions r waiting s) = activeModal s
  ∧ activeElement (run_reactions r waiting s) = activeElement s.
Proof.
  unfold run_reactions. revert s.
  induction waiting as [|x waiting IH]; intros s; cbn [fold_left]; [done |].
  destruct (IH (react x.2 r s)) as (-> & -> & -> & -> & -> & -> & ->).
  apply react_static.
Qed.

Lemma run_reactions_cache r waiting s :
  cache (run_reactions r waiting s)
  = fold_left (λ c x, reaction_cache x.2 r c) waiting (cache s).
Proof.
  unfold run_reactions. revert s.
  induction waiting as [|x waiting IH]; intros s; cbn [fold_left]; [done |].
  by rewrite IH, react_cache.
Qed.

Lemma run_reactions_loadingPromises r waiting s :
  loadingPromises (run_reactions r waiting s)
  = fold_left (λ l x, reaction_registry x.2 l) waiting (loadingPromises s).
Proof.
  unfold run_reactions. revert s.
  induction waiting as [|x waiting IH]; intros s; cbn [fold_left]; [done |].
  by rewrite IH, react_loadingPromises.
Qed.

Lemma run_reactions_modals r waiting s type m :
  modals s !! type = Some m →
  ∃ m', modals (run_reactions r waiting s) !! type = Some m' ∧ derived m m'.
Proof.
  unfold run_reactions. revert s m.
  induction waiting as [|x waiting IH]; intros s m Hm; cbn [fold_left].
  - eauto using derived_refl.
  - destruct (react_modals x.2 r s type m Hm) as (m1 & Hm1 & Hd1).
    destruct (IH _ _ Hm1) as (m2 & Hm2 & Hd2). eauto using derived_trans.
Qed.

(** A rejection writes nothing in the cache. *)
Lemma reactions_cache_rejected e (waiting : list (nat * reaction)) (c : gmap string json) :
  fold_left (λ c x, reaction_cache x.2 (Rejected e) c) waiting c = c.
Proof.
  revert c. induction waiting as [|[p rx] waiting IH]; intros c; cbn [fold_left snd]; [done |].
  rewrite IH. by destruct rx.
Qed.

(** A fulfilment writes its payload and nothing else. *)
Lemma reactions_cache_fulfilled data (waiting : list (nat * reaction))
    (c : gmap string json) (K : string) :
  fold_left (λ c x, reaction_cache x.2 (Fulfilled data) c) waiting c !! K = c !! K
  ∨ fold_left (λ c x, reaction_cache x.2 (Fulfilled data) c) waiting c !! K = Some data.
Proof.
  revert c. induction waiting as [|[p rx] waiting IH]; intros c; cbn [fold_left snd]; [by left |].
  destruct (IH (reaction_cache rx (Fulfilled data) c)) as [Heq|Heq]; rewrite Heq; [| by right].
  destruct rx as [i cfg K'|i cfg|type]; cbn [reaction_cache]; try by left.
  destruct (decide (K' = K)) as [->|?];
    [right; apply lookup_insert_eq | left; by apply lookup_insert_ne].
Qed.

(** The reactions only remove entries from the in-flight registry. *)
Lemma reactions_registry_subset (waiting : list (nat * reaction)) (l : gmap string nat) (K : string) (q : nat) :
  fold_left (λ l x, reaction_registry x.2 l) waiting l !! K = Some q → l !! K = Some q.
Proof.
  revert l. induction waiting as [|[p rx] waiting IH]; intros l; cbn [fold_left snd]; [done |].
  intros H%IH. destruct rx as [i cfg K'|i cfg|type]; cbn [reaction_registry] in H; try done.
  by apply lookup_delete_Some in H as [_ ?].
Qed.

(** *** Settling a request *)

Definition pending (s : dashboard) (p : nat) (rq : request) : Prop :=
  requests s !! p = Some rq ∧ results s !! p = None.

Lemma settle_pending s p b rq r :
  pending s p rq → request_outcome b = Some r →
  settle p b s =
  run_reactions r (filter (λ x, x.1 = p) (reactions s))
    (set_reactions (filter (λ x, x.1 ≠ p))
       (set_results (insert p r)
          (set_loadingPromises (delete (req_key rq))
             (match r with
              | Fulfilled data => set_cache (insert (req_key rq) data) s
              | Rejected _ => s
              end)))).
Proof.
  intros [Hrq Hres] Hb. unfold settle. rewrite Hrq, Hres, Hb. by destruct r.
Qed.

(** A promise that is not pending cannot settle (again). *)
Lemma settle_not_pending s p b :
  (∀ rq, ¬ pending s p rq) → settle p b s = s.
Proof.
  intros Hnp. unfold settle. destruct (requests s !! p) as [rq|] eqn:Hrq; [| done].
  destruct (results s !! p) eqn:Hres; [done |]. by destruct (Hnp rq).
Qed.

Lemma settle_static s p b :
  config (settle p b s) = config s
  ∧ globalFilters (settle p b s) = globalFilters s
  ∧ requests (settle p b s) = requests s
  ∧ activeModal (settle p b s) = activeModal s
  ∧ activeElement (settle p b s) = activeElement s.
Proof.
  unfold settle. destruct (requests s !! p) as [rq|]; [| done].
  destruct (results s !! p); [done |]. destruct (request_outcome b) as [r|]; [| done].
  match goal with |- context [fold_left ?f ?w ?s0] =>
    change (fold_left f w s0) with (run_reactions r w s0);
    destruct (run_reactions_static r w s0) as (-> & -> & -> & _ & _ & -> & ->)
  end.
  by destruct r.
Qed.

Lemma settle_results s p b rq r :
  pending s p rq → request_outcome b = Some r →
  results (settle p b s) = <[p := r]> (results s).
Proof.
  intros Hp Hb. rewrite (settle_pending s p b rq r Hp Hb).
  match goal with |- context [run_reactions ?r ?w ?s0] =>
    destruct (run_reactions_static r w s0) as (_ & _ & _ & -> & _)
  end.
  by destruct r.
Qed.

Lemma settle_cache s p b rq r :
  pending s p rq → request_outcome b = Some r →
  match r with
  | Fulfilled data =>
      cache (settle p b s) !! req_key rq = Some data
      ∧ ∀ K, cache (settle p b s) !! K = cache s !! K
             ∨ cache (settle p b s) !! K = Some data
  | Rejected _ => cache (settle p b s) = cache s
  end.
Proof.
  intros Hp Hb. rewrite (settle_pending s p b rq r Hp Hb), run_reactions_cache.
  destruct r as [data|e]; cbn.
  - match goal with |- context [fold_left ?f ?w ?c] =>
      pose proof (reactions_cache_fulfilled data w c) as Hf
    end.
    split.
    + destruct (Hf (req_key rq)) as [Heq|Heq]; rewrite Heq; [apply lookup_insert_eq | done].
    + intros K. destruct (Hf K) as [Heq|Heq]; rewrite Heq; [| by right].
      destruct (decide (req_key rq = K)) as [->|?];
        [right; apply lookup_insert_eq | left; by apply lookup_insert_ne].
  - apply reactions_cache_rejected.
Qed.

Lemma settle_loadingPromises s p b rq r :
  pending s p rq → request_outcome b = Some r →
  loadingPromises (settle p b s) !! req_key rq = None
  ∧ ∀ K q, loadingPromises (settle p b s) !! K = Some q → loadingPromises s !! K = Some q.
Proof.
  intros Hp Hb. rewrite (settle_pending s p b rq r Hp Hb), run_reactions_loadingPromises.
  assert (Hsub : ∀ K q,
    fold_left (λ l x, reaction_registry x.2 l) (filter (λ x, x.1 = p) (reactions s))
      (delete (req_key rq) (loadingPromises s)) !! K = Some q →
    K ≠ req_key rq ∧ loadingPromises s !! K = Some q).
  { intros K q H%reactions_registry_subset. apply lookup_delete_Some in H as [? ?]. eauto. }
  destruct r; cbn; (split; [| intros K q H; by apply Hsub in H as [_ ?]]);
    (destruct (fold_left _ _ _ !! req_key rq) as [q|] eqn:Hq; [| done];
     by apply Hsub in Hq as [? _]).
Qed.

(** ** Timeout and HTTP failures *)

(** No response headers and no failure within the timeout. *)
Definition no_answer_in_time (b : network_behaviour) : Prop :=
  match b with
  | Responds t _ | Fails t _ => (TIMEOUT_MS ≤ t)%N
  | Silent => True
  end.

Lemma request_outcome_timeout b :
  no_answer_in_time b →
  fetch b = Throws AbortError
  ∧ request_outcome b = Some (Rejected (Error "Error" "La petición tomó demasiado tiempo")).
Proof.
  unfold request_outcome. destruct b as [t r|t e|]; cbn [no_answer_in_time fetch]; intros Ht;
    try (apply N.ltb_ge in Ht; rewrite Ht); done.
Qed.

Lemma request_outcome_http_failure t r :
  (t < TIMEOUT_MS)%N → response_ok r = false →
  request_outcome (Responds t r)
  = Some (Rejected (Error "Error" ("HTTP " +:+ decimal (status r) +:+ ": " +:+ statusText r))).
Proof.
  intros Ht%N.ltb_lt Hok. unfold request_outcome, fetch, on_response. by rewrite Ht, Hok.
Qed.

(** The only request that never settles is the one whose body never
    completes after an OK status that came in time. *)
Lemma request_outcome_None b :
  request_outcome b = None ↔
  ∃ t r, b = Responds t r ∧ (t < TIMEOUT_MS)%N ∧ response_ok r = true ∧ body r = BodyPending.
Proof.
  unfold request_outcome, fetch, on_response. split.
  - destruct b as [t r|t e|]; [| by destruct (t <? TIMEOUT_MS)%N | done].
    destruct (t <? TIMEOUT_MS)%N eqn:Ht; [| done]. apply N.ltb_lt in Ht.
    destruct (response_ok r) eqn:Hok; [| done].
    destruct (body r) eqn:Hbody; try done. intros _. by exists t, r.
  - intros (t & r & -> & Ht%N.ltb_lt & Hok & Hbody). by rewrite Ht, Hok, Hbody.
Qed.

(** C6.  A request whose response headers have not arrived when the 30
    second timer fires is aborted, and its promise rejects with the error
    [La petición tomó demasiado tiempo]; a response that arrives in time
    with a status that is not OK rejects with [HTTP <status>: <text>], a
    different message whatever the status. *)
Theorem timeout_rejects_with_its_own_error (s : dashboard) (p : nat) (rq : request)
    (b : network_behaviour) :
  pending s p rq →
  no_answer_in_time b →
  fetch b = Throws AbortError
  ∧ results (settle p b s) !! p
    = Some (Rejected (Error "Error" "La petición tomó demasiado tiempo"))
  ∧ ∀ t r, (t < TIMEOUT_MS)%N → response_ok r = false →
      ∃ e, results (settle p (Responds t r) s) !! p = Some (Rejected e)
           ∧ err_message e = "HTTP " +:+ decimal (status r) +:+ ": " +:+ statusText r
           ∧ err_message e ≠ "La petición tomó demasiado tiempo".
Proof.
  intros Hp Hb. destruct (request_outcome_timeout b Hb) as [Hfetch Hout].
  split; [done |]. split.
  - rewrite (settle_results s p b rq _ Hp Hout). apply lookup_insert_eq.
  - intros t r Ht Hok.
    exists (Error "Error" ("HTTP " +:+ decimal (status r) +:+ ": " +:+ statusText r)).
    split; [| split; [reflexivity | cbn; discriminate]].
    rewrite (settle_results s p _ rq _ Hp (request_outcome_http_failure t r Ht Hok)).
    apply lookup_insert_eq.
Qed.

Lemma timeout_rejects_with_its_own_error_witness :
  let s := step (ClickRun "product-sales") sample_page in
  ∃ rq,
    pending s 0 rq
    ∧ results (settle 0 (Responds 30000 (Response 200 "OK" (BodyJSON JNull))) s) !! 0
      = Some (Rejected (Error "Error" "La petición tomó demasiado tiempo")).
Proof.
  intros s. eexists. split; [split; vm_compute; reflexivity |].
  eapply timeout_rejects_with_its_own_error; [split; vm_compute; reflexivity |].
  cbn. unfold TIMEOUT_MS. lia.
Defined.

(** ** The in-flight registry after a settle *)

(** C7.  When a pending request settles, whatever the outcome, the
    in-flight registry has no entry under its cache key afterwards and has
    gained none; a rejection leaves the cache as it was, a fulfilment stores
    the payload under the key.  A later call that derives the same key gets
    the cached payload after a fulfilment, and after a rejection (the key not
    being cached) a new request with a new promise, never the settled one. *)
Theorem in_flight_entry_removed_on_settle (s : dashboard) (p : nat) (rq : request)
    (b : network_behaviour) (r : settled) :
  pending s p rq →
  request_outcome b = Some r →
  let s' := settle p b s in
  loadingPromises s' !! req_key rq = None
  ∧ (∀ K q, loadingPromises s' !! K = Some q → loadingPromises s !! K = Some q)
  ∧ results s' !! p = Some r
  ∧ match r with
    | Fulfilled data => cache s' !! req_key rq = Some data
    | Rejected _ => cache s' = cache s
    end
  ∧ ∀ type opts cfg,
      config s' !! type = Some cfg →
      generateCacheKey (globalFilters s') type opts = req_key rq →
      match r with
      | Fulfilled data => fetchReport type opts s' = (s', Settled (Fulfilled data))
      | Rejected _ =>
          cache s !! req_key rq = None →
          (fetchReport type opts s').2 = InFlight (length (requests s'))
          ∧ p < length (requests s')
          ∧ requests (fetchReport type opts s').1
            = requests s' ++ [Request (req_key rq) (request_url cfg (globalFilters s') opts)]
      end.
Proof.
  intros Hp Hb s'.
  destruct (settle_loadingPromises s p b rq r Hp Hb) as [Hgone Hsub].
  pose proof (settle_cache s p b rq r Hp Hb) as Hcache.
  pose proof (settle_results s p b rq r Hp Hb) as Hres.
  destruct (settle_static s p b) as (_ & _ & Hreqs & _).
  fold s' in Hgone, Hsub, Hcache, Hres, Hreqs.
  split; [done |]. split; [done |].
  split; [rewrite Hres; apply lookup_insert_eq |].
  split; [destruct r; [apply Hcache | done] |].
  intros type opts cfg Hcfg Hkey. unfold fetchReport. rewrite Hcfg, Hkey.
  destruct r as [data|e].
  - destruct Hcache as [-> _]. done.
  - intros Hmiss. rewrite Hcache, Hmiss, Hgone. cbn.
    split; [done |]. split; [| done].
    rewrite Hreqs. destruct Hp as [Hrq _]. by apply lookup_lt_Some in Hrq.
Qed.

Lemma in_flight_entry_removed_on_settle_witness :
  let s := step (ClickRun "product-sales") sample_page in
  let b := Responds 120 (Response 500 "Internal Server Error" (BodyJSON JNull)) in
  ∃ rq,
    pending s 0 rq
    ∧ loadingPromises s !! req_key rq = Some 0
    ∧ loadingPromises (settle 0 b s) !! req_key rq = None.
Proof.
  intros s b. eexists. split; [split; vm_compute; reflexivity |].
  split; [vm_compute; reflexivity |].
  match goal with
  | |- context [req_key ?rq] =>
      assert (Hp : pending s 0 rq) by (split; vm_compute; reflexivity);
      assert (Hb : request_outcome b
                   = Some (Rejected (Error "Error" "HTTP 500: Internal Server Error")))
        by (vm_compute; reflexivity);
      exact (proj1 (in_flight_entry_removed_on_settle s 0 rq b _ Hp Hb))
  end.
Defined.

(** ** What every event preserves *)

(** [same_modal m m']: the same modal later on; it keeps its type and its
    descriptor, and once loaded it stays loaded. *)
Definition same_modal (m m' : modal) : Prop :=
  modal_type m' = modal_type m
  ∧ modal_config m' = modal_config m
  ∧ (loadedOnce m = true → loadedOnce m' = true).

Lemma same_modal_refl m : same_modal m m.
Proof. by repeat split. Qed.

Lemma same_modal_trans m1 m2 m3 : same_modal m1 m2 → same_modal m2 m3 → same_modal m1 m3.
Proof. intros (? & ? & ?) (? & ? & ?). repeat split; try congruence. auto. Qed.

Lemma derived_same_modal m m' : derived m m' → same_modal m m'.
Proof. intros (? & ? & ? & ?). by repeat split. Qed.

(** [grows s s']: the descriptor table is the same, the request log and the
    settled promises have only gained entries, and every modal is still
    there. *)
Record grows (s s' : dashboard) : Prop := Grows {
  grows_config : config s' = config s;
  grows_requests : requests s `prefix_of` requests s';
  grows_results : ∀ p r, results s !! p = Some r → results s' !! p = Some r;
  grows_modals : ∀ type m, modals s !! type = Some m →
                 ∃ m', modals s' !! type = Some m' ∧ same_modal m m'
}.

Lemma grows_refl s : grows s s.
Proof. split; eauto using same_modal_refl. Qed.

Lemma grows_trans s1 s2 s3 : grows s1 s2 → grows s2 s3 → grows s1 s3.
Proof.
  intros [Hc1 Hq1 Hr1 Hm1] [Hc2 Hq2 Hr2 Hm2]. split.
  - congruence.
  - by etrans.
  - auto.
  - intros type m Hm. destruct (Hm1 _ _ Hm) as (m' & Hm' & ?).
    destruct (Hm2 _ _ Hm') as (m'' & ? & ?). eauto using same_modal_trans.
Qed.

Lemma grows_same s s' :
  config s' = config s → requests s' = requests s → results s' = results s →
  modals s' = modals s → grows s s'.
Proof.
  intros Hc Hq Hr Hm. split; [done | by rewrite Hq | by rewrite Hr |].
  intros type m H. rewrite Hm. eauto using same_modal_refl.
Qed.

Lemma set_modal_grows s type m m' :
  modals s !! type = Some m → same_modal m m' →
  grows s (set_modals (insert type m') s).
Proof.
  intros Hm Hsame. split; cbn; [done | done | done |].
  intros type' m0 Hm0. destruct (decide (type = type')) as [<-|Hne].
  - rewrite lookup_insert_eq. assert (m0 = m) as -> by congruence. eauto.
  - rewrite lookup_insert_ne by done. eauto using same_modal_refl.
Qed.

Lemma react_grows rx r s : grows s (react rx r s).
Proof.
  destruct (react_static rx r s) as (Hc & _ & Hq & Hr & _).
  split; [done | by rewrite Hq | by rewrite Hr |].
  intros type m Hm. destruct (react_modals rx r s type m Hm) as (m' & ? & ?).
  eauto using derived_same_modal.
Qed.

Lemma run_reactions_grows r waiting s : grows s (run_reactions r waiting s).
Proof.
  unfold run_reactions. revert s.
  induction waiting as [|x waiting IH]; intros s; cbn [fold_left]; [apply grows_refl |].
  eapply grows_trans; [apply react_grows | apply IH].
Qed.

Lemma attach_grows pr rx s : grows s (attach pr rx s).
Proof.
  unfold attach. destruct pr as [r|p]; [apply react_grows |].
  destruct (results s !! p); [apply react_grows | by apply grows_same].
Qed.

Lemma fetchReport_grows type opts s : grows s (fetchReport type opts s).1.
Proof.
  unfold fetchReport. destruct (config s !! type); [| apply grows_refl].
  destruct (cache s !! _); [apply grows_refl |].
  destruct (loadingPromises s !! _); [apply grows_refl |].
  split; cbn; [done | by apply prefix_app_r | done | eauto using same_modal_refl].
Qed.

Lemma settle_grows p b s : grows s (settle p b s).
Proof.
  unfold settle. destruct (requests s !! p) as [rq|]; [| apply grows_refl].
  destruct (results s !! p) eqn:Hres; [apply grows_refl |].
  destruct (request_outcome b) as [r|]; [| apply grows_refl].
  match goal with |- context [fold_left ?f ?w ?s0] =>
    change (fold_left f w s0) with (run_reactions r w s0);
    eapply grows_trans; [| apply run_reactions_grows]
  end.
  split; cbn.
  - by destruct r.
  - by destruct r.
  - intros q r' Hq. rewrite lookup_insert_ne; [by destruct r |]. intros ->.
    destruct r; cbn in Hq; congruence.
  - intros type m Hm. exists m. split; [by destruct r | apply same_modal_refl].
Qed.

Lemma setCardLoading_grows i b s : grows s (setCardLoading i b s).
Proof. by apply grows_same. Qed.

Lemma updateCardValue_grows i v s : grows s (updateCardValue i v s).
Proof. by apply grows_same. Qed.

Lemma loadCardData_grows i type s : grows s (loadCardData i type s).
Proof.
  unfold loadCardData. destruct (config s !! type) as [cfg|]; [| apply grows_refl].
  destruct (cache s !! _); [apply updateCardValue_grows |].
  destruct (loadingPromises s !! _); [apply attach_grows |].
  pose proof (fetchReport_grows type (Options None true) (setCardLoading i true s)) as Hf.
  destruct (fetchReport type _ (setCardLoading i true s)) as [s1 pr]. cbn [fst] in Hf.
  eapply grows_trans; [apply setCardLoading_grows |].
  eapply grows_trans; [apply Hf |].
  eapply grows_trans; [| apply attach_grows].
  destruct pr; [apply grows_refl | by apply grows_same].
Qed.

Lemma refreshCards_grows s : grows s (refreshCards s).
Proof.
  unfold refreshCards. generalize (cards s) as l. intros l. revert s.
  induction l as [|tc l IH]; intros s; cbn [fold_left]; [apply grows_refl |].
  eapply grows_trans; [apply loadCardData_grows | apply IH].
Qed.

Lemma runReport_grows type s : grows s (runReport type s).
Proof.
  unfold runReport. destruct (modals s !! type) as [m|] eqn:Hm; [| apply grows_refl].
  match goal with |- context [fetchReport ?t ?o ?s0] =>
    pose proof (fetchReport_grows t o s0) as Hf;
    destruct (fetchReport t o s0) as [s1 pr]; cbn [fst] in Hf;
    assert (grows s s0) as H0 by (by apply (set_modal_grows s type m))
  end.
  eapply grows_trans; [apply H0 |]. eapply grows_trans; [apply Hf | apply attach_grows].
Qed.

Lemma syncWithGlobalFilters_same g m : same_modal m (syncWithGlobalFilters g m).
Proof. unfold syncWithGlobalFilters. by destruct (bool_decide _). Qed.

Lemma modal_open_grows type s : grows s (modal_open type s).
Proof.
  unfold modal_open. destruct (modals s !! type) as [m|] eqn:Hm; [| apply grows_refl].
  destruct (isOpen m); [apply grows_refl |].
  match goal with |- context [set_modals (insert type ?m1) s] =>
    assert (grows s (setActiveModal (Some type) (set_modals (insert type m1) s))) as H0
  end.
  { eapply grows_trans; [apply (set_modal_grows s type m); [done |] | by apply grows_same].
    eapply same_modal_trans; [| apply syncWithGlobalFilters_same]. by repeat split. }
  destruct (loadedOnce m); [done |].
  eapply grows_trans; [apply H0 | apply runReport_grows].
Qed.

Lemma modal_close_grows type s : grows s (modal_close type s).
Proof.
  unfold modal_close. destruct (modals s !! type) as [m|] eqn:Hm; [| apply grows_refl].
  destruct (isOpen m); [| apply grows_refl].
  eapply grows_trans; [apply (set_modal_grows s type m (hide m)); [done | by repeat split] |].
  destruct (previousActive m); by apply grows_same.
Qed.

Lemma clearCache_grows s : grows s (clearCache s).
Proof. by apply grows_same. Qed.

Lemma step_grows e s : grows s (step e s).
Proof.
  destruct e as [i| |start finish|i|type| |type|type i value|p b]; cbn [step].
  - destruct (cardElements s !! i) as [c|]; [| apply grows_refl].
    destruct (_ && _); [| apply grows_refl].
    eapply grows_trans; [apply loadCardData_grows | by apply grows_same].
  - apply refreshCards_grows.
  - set (s1 := set_globalFilters _ s).
    apply (grows_trans _ s1); [by apply grows_same |].
    apply (grows_trans _ (clearCache s1)); [apply clearCache_grows |].
    apply (grows_trans _ (refreshCards (clearCache s1))); [apply refreshCards_grows |].
    by apply grows_same.
  - destruct (cardElements s !! i) as [c|]; [| apply grows_refl].
    destruct (config s !! trigger c); [apply modal_open_grows | apply grows_refl].
  - apply modal_close_grows.
  - destruct (activeModal s); [apply modal_close_grows | apply grows_refl].
  - apply runReport_grows.
  - split; cbn; [done | done | done |].
    intros type' m Hm. destruct (decide (type = type')) as [<-|Hne].
    + rewrite lookup_alter_eq, Hm. cbn. eexists. split; [done | by repeat split].
    + rewrite lookup_alter_ne by done. eauto using same_modal_refl.
  - apply settle_grows.
Qed.

Lemma run_grows trace s : grows s (run trace s).
Proof.
  unfold run. revert s.
  induction trace as [|e trace IH]; intros s; cbn [fold_left]; [apply grows_refl |].
  eapply grows_trans; [apply step_grows | apply IH].
Qed.

(** ** What every event but a range change preserves *)


















(** ** Cache hits *)




(** ** Automatic runs of a modal *)

(** The state [open] leaves before it decides on a run. *)
Definition opened (type : string) (m : modal) (s : dashboard) : dashboard :=
  setActiveModal (Some type)
    (set_modals
       (insert type (syncWithGlobalFilters (globalFilters s) (show (activeElement s) m)))
       s).

(** C8, as the code has it.  [open] on an open modal changes nothing.  On a
    closed modal whose [loadedOnce] is set it only shows the modal: no
    request is issued and the table body is untouched.  On a closed modal
    whose [loadedOnce] is not set it shows the modal and runs the report,
    at the first open and at every later one.  [loadedOnce] is set when a run
    is fulfilled and rendered, a rejected run leaves it as it is, and no
    event ever clears it. *)
Theorem modal_open_runs_until_loaded (s : dashboard) (type : string) (m : modal) :
  modals s !! type = Some m →
  (isOpen m = true → modal_open type s = s)
  ∧ (isOpen m = false → loadedOnce m = true →
     modal_open type s = opened type m s
     ∧ requests (modal_open type s) = requests s
     ∧ tableBody <$> modals (modal_open type s) !! type = Some (tableBody m))
  ∧ (isOpen m = false → loadedOnce m = false →
     modal_open type s = runReport type (opened type m s))
  ∧ (∀ data, (render data m).2 = true →
     loadedOnce <$> modals (react (ModalRun type) (Fulfilled data) s) !! type = Some true)
  ∧ (∀ e, loadedOnce <$> modals (react (ModalRun type) (Rejected e) s) !! type
          = Some (loadedOnce m))
  ∧ (∀ trace, loadedOnce m = true →
     ∃ m', modals (run trace s) !! type = Some m' ∧ loadedOnce m' = true).
Proof.
  intros Hm. split; [| split; [| split; [| split; [| split]]]].
  - intros Ho. unfold modal_open. by rewrite Hm, Ho.
  - intros Ho Hl. unfold modal_open. rewrite Hm, Ho, Hl.
    split; [done |]. split; [done |].
    cbn. rewrite lookup_insert_eq. cbn.
    unfold syncWithGlobalFilters. by destruct (bool_decide _).
  - intros Ho Hl. unfold modal_open. by rewrite Hm, Ho, Hl.
  - intros data Hok. cbn [react]. rewrite Hm.
    destruct (render data m) as [m1 ok]. cbn [snd] in Hok. subst ok.
    cbn. by rewrite lookup_insert_eq.
  - intros e. cbn [react]. rewrite Hm. cbn. by rewrite lookup_insert_eq.
  - intros trace Hl. destruct (grows_modals _ _ (run_grows trace s) _ _ Hm)
      as (m' & Hm' & _ & _ & Hloaded). eauto.
Qed.

Lemma modal_open_runs_until_loaded_witness :
  ∃ m,
    modals sample_page !! "product-sales" = Some m
    ∧ modal_open "product-sales" sample_page
      = runReport "product-sales" (opened "product-sales" m sample_page).
Proof.
  eexists. split; [vm_compute; reflexivity |].
  match goal with
  | |- context [opened _ ?m _] =>
      exact (proj1 (proj2 (proj2
               (modal_open_runs_until_loaded sample_page "product-sales" m eq_refl)))
               eq_refl eq_refl)
  end.
Defined.

(** C8 as stated fails: the first run fails, the modal is closed, and the
    second open runs the report again and issues a second request. *)
Lemma second_open_runs_again_after_failure :
  let b := Responds 120 (Response 500 "Internal Server Error" (BodyJSON JNull)) in
  let s1 := run [ClickCard 1; Settle 0 b; ClickClose "product-sales"] sample_page in
  let s2 := step (ClickCard 1) s1 in
  req_url <$> requests s1 = ["/app/reportes/ventas-producto/?search=tv"]
  ∧ (isOpen <$> modals s1 !! "product-sales") = Some false
  ∧ req_url <$> requests s2
    = ["/app/reportes/ventas-producto/?search=tv";
       "/app/reportes/ventas-producto/?search=tv"]
  ∧ (dataset_loading <$> modals s2 !! "product-sales") = Some (Some "true").
Proof. by vm_compute. Qed.

(** ** Coalescing *)





(** A reaction that is no card leader writes neither cache nor registry. *)
Definition is_leader (rx : reaction) : Prop :=
  match rx with
  | CardLeader _ _ _ => True
  | _ => False
  end.





Lemma fetchReport_new type opts cfg s :
  config s !! type = Some cfg →
  cache s !! generateCacheKey (globalFilters s) type opts = None →
  loadingPromises s !! generateCacheKey (globalFilters s) type opts = None →
  fetchReport type opts s
  = (set_loadingPromises
       (insert (generateCacheKey (globalFilters s) type opts) (length (requests s)))
       (set_requests
          (λ l, l ++ [Request (generateCacheKey (globalFilters s) type opts)
                        (request_url cfg (globalFilters s) opts)]) s),
     InFlight (length (requests s))).
Proof. intros Hcfg Hc Hl. unfold fetchReport. by rewrite Hcfg, Hc, Hl. Qed.



(** [keyed K rx]: if [rx] writes the cache or the registry, it is under [K]. *)
Definition keyed (K : string) (rx : reaction) : Prop :=
  match rx with
  | CardLeader _ _ K' => K' = K
  | _ => True
  end.














(** * Further properties of the code *)

(** ** [escapeHtml] *)

(** What [escapeHtml] does to one character. *)
Definition escape_char (c : Ascii.ascii) : string :=
  if decide (c = "&"%char) then "&amp;"
  else if decide (c = "<"%char) then "&lt;"
  else if decide (c = ">"%char) then "&gt;"
  else if decide (c = Ascii.ascii_of_nat 34) then "&quot;"
  else if decide (c = "'"%char) then "&#39;"
  else String c "".

Lemma concat_map_append f (a b : string) :
  concat_map f (a +:+ b) = concat_map f a +:+ concat_map f b.
Proof.
  induction a as [|x a IH]; cbn [concat_map String.append]; [done |].
  by rewrite IH, append_assoc.
Qed.

Lemma concat_map_compose f g (s : string) :
  concat_map f (concat_map g s) = concat_map (λ c, concat_map f (g c)) s.
Proof.
  induction s as [|x s IH]; cbn [concat_map]; [done |].
  by rewrite concat_map_append, IH.
Qed.

Lemma concat_map_ext f g (s : string) :
  (∀ c, f c = g c) → concat_map f s = concat_map g s.
Proof. intros H. induction s as [|x s IH]; cbn [concat_map]; [done | by rewrite H, IH]. Qed.

Lemma concat_map_one f (c : Ascii.ascii) : concat_map f (String c "") = f c.
Proof. cbn [concat_map]. apply append_nil_r. Qed.

(** X1.  The five replacements of [escapeHtml] amount to one pass that maps
    every character on its own: the ampersand of an entity written by an
    earlier replacement is never escaped again.  [escapeHtml] therefore
    distributes over concatenation, and its result holds no angle bracket
    and no quote. *)
Theorem escapeHtml_single_pass (a b : string) :
  escapeHtml a = concat_map escape_char a
  ∧ escapeHtml (a +:+ b) = escapeHtml a +:+ escapeHtml b
  ∧ ∀ c, c ∈ ["<"%char; ">"%char; Ascii.ascii_of_nat 34; "'"%char] →
         count_char c (escapeHtml a) = 0.
Proof.
  assert (H : ∀ s, escapeHtml s = concat_map escape_char s).
  { intros s. unfold escapeHtml, replaceAll. rewrite !concat_map_compose.
    apply concat_map_ext. intros c. unfold escape_char.
    destruct (decide (c = "&"%char)) as [->|H1]; [done |].
    rewrite concat_map_one.
    destruct (decide (c = "<"%char)) as [->|H2]; [done |].
    rewrite concat_map_one.
    destruct (decide (c = ">"%char)) as [->|H3]; [done |].
    rewrite concat_map_one.
    destruct (decide (c = Ascii.ascii_of_nat 34)) as [->|H4]; [done |].
    rewrite concat_map_one.
    by destruct (decide (c = "'"%char)). }
  split; [apply H |]. split; [by rewrite !H, concat_map_append |].
  intros c Hc. by apply escapeHtml_no_markup.
Qed.

(** ** The query string *)

Lemma count_char_join c sep (l : list string) :
  count_char c (join sep l)
  = sum_list (count_char c <$> l) + (length l - 1) * count_char c sep.
Proof.
  induction l as [|x l IH]; [done |].
  destruct l as [|y l]; [cbn; lia |].
  change (join sep (x :: y :: l)) with (x +:+ sep +:+ join sep (y :: l)).
  rewrite !count_char_append, IH. cbn [fmap list_fmap sum_list length].
  unfold id. nia.
Qed.

(** The serializer writes a reserved character of a name or a value as a
    percent escape. *)
Lemma count_char_urlencode (c : Ascii.ascii) (s : string) :
  c ∈ ["&"%char; "="%char; "?"%char; "#"%char] →
  count_char c (urlencode s) = 0.
Proof.
  intros Hc. unfold urlencode. apply count_char_concat_map; [| right].
  - intros x _.
    repeat (apply elem_of_cons in Hc as [->|Hc]); [| | | | by apply elem_of_nil in Hc];
      destruct x as [[] [] [] [] [] [] [] []]; by vm_compute.
  - repeat (apply elem_of_cons in Hc as [->|Hc]); [| | | | by apply elem_of_nil in Hc];
      by vm_compute.
Qed.

(** X2.  In the query string that [URLSearchParams] serializes, every [&]
    separates two parameters and every [=] separates a name from its value:
    no filter key or value can add a parameter, end the query or start a
    fragment. *)
Theorem query_string_separators (p : URLSearchParams) :
  count_char "&" (params_toString p) = length p - 1
  ∧ count_char "=" (params_toString p) = length p
  ∧ count_char "?" (params_toString p) = 0
  ∧ count_char "#" (params_toString p) = 0.
Proof.
  unfold params_toString.
  assert (H : ∀ c : Ascii.ascii,
    c ∈ ["&"%char; "="%char; "?"%char; "#"%char] →
    sum_list (count_char c <$> ((λ nv : string * string,
                 urlencode nv.1 +:+ "=" +:+ urlencode nv.2) <$> p))
    = if decide (c = "="%char) then length p else 0).
  { intros c Hc. induction p as [|[n v] p IH]; [by destruct (decide _) |].
    cbn [fmap list_fmap sum_list fst snd]. change (list_fmap _ _ ?f ?l) with (f <$> l).
    rewrite IH, !count_char_append, !count_char_urlencode by done.
    cbn [count_char length]. destruct (decide (c = "="%char)) as [->|Hne].
    - by rewrite decide_True.
    - by rewrite decide_False by done. }
  rewrite !count_char_join, !H, !length_fmap by set_solver.
  cbn. repeat case_decide; simplify_eq. repeat split; lia.
Qed.

(** ** Assignments in sequence *)

Lemma last_cons_match {A} (x : A) (l : list A) :
  last (x :: l) = match last l with Some y => Some y | None => Some x end.
Proof. destruct l as [|y l]; [done |]. rewrite last_cons_cons. by destruct (last (y :: l)) eqn:H; [| apply last_None in H]. Qed.

(** After the entries of [source] have been assigned in order, a key reads
    as its last assignment, or as it did before when it was not assigned. *)
Lemma obj_get_assign (target : jsobj) (source : list (string * jsval)) (k : string) :
  obj_get (obj_assign target source) k =
  match last (filter (λ kv, kv.1 = k) source) with
  | Some kv => Some kv.2
  | None => obj_get target k
  end.
Proof.
  unfold obj_assign. revert target.
  induction source as [|[k0 v0] source IH]; intros target; cbn [fold_left]; [done |].
  rewrite IH, obj_get_set. cbn [fst snd].
  rewrite (filter_cons (λ kv : string * jsval, kv.1 = k)). cbn [fst].
  destruct (decide (k0 = k)) as [->|Hne]; [| done].
  rewrite last_cons_match. by destruct (last _).
Qed.

Lemma filter_key_absent (o : list (string * jsval)) (k : string) :
  k ∉ obj_keys o → filter (λ kv : string * jsval, kv.1 = k) o = [].
Proof.
  unfold obj_keys. induction o as [|[k0 v0] o IH]; [done |].
  rewrite fmap_cons. intros [Hne Hin]%not_elem_of_cons.
  rewrite (filter_cons (λ kv : string * jsval, kv.1 = k)). cbn [fst] in *.
  rewrite decide_False by done. by apply IH.
Qed.

Lemma last_filter_obj_get (o : list (string * jsval)) (k : string) :
  NoDup (obj_keys o) →
  snd <$> last (filter (λ kv, kv.1 = k) o) = obj_get o k.
Proof.
  induction o as [|[k0 v0] o IH]; intros Hnd; [done |].
  unfold obj_keys in Hnd. rewrite fmap_cons in Hnd. apply NoDup_cons in Hnd as [Hk0 Hnd].
  rewrite (filter_cons (λ kv : string * jsval, kv.1 = k)). cbn [fst obj_get].
  destruct (decide (k0 = k)) as [->|Hne]; [| by apply IH].
  rewrite last_cons_match. by rewrite (filter_key_absent o k).
Qed.

(** ** Filters of a modal *)


(** ** Precedence of the filter sources *)

(** X4.  In the filters [fetchReport] merges, an explicit filter wins over
    the global range and the defaults, the empty string included; a key that
    is not among the explicit filters reads as without them.  When the global
    range applies, its end date is under the mapped name of [end]. *)
Theorem merged_filters_precedence (cfg : descriptor) (g : global_filters)
    (explicit : jsobj) (useGlobal : bool) (k : string) :
  NoDup (obj_keys explicit) →
  obj_get (merged_filters cfg g (Options (Some explicit) useGlobal)) k =
    match obj_get explicit k with
    | Some v => Some v
    | None => obj_get (merged_filters cfg g (Options None useGlobal)) k
    end
  ∧ (supportsRange cfg ≠ Some false → gf_end g ≠ "" →
     obj_get (merged_filters cfg g (Options None true)) (param_name cfg "end")
     = Some (VStr (gf_end g))).
Proof.
  intros Hnd. split.
  - unfold merged_filters. cbn [filters useGlobalFilters].
    rewrite obj_get_assign, <- (last_filter_obj_get explicit k Hnd).
    by destruct (last _).
  - intros Hrange Hend. unfold merged_filters. cbn [filters useGlobalFilters andb].
    rewrite bool_decide_eq_false_2 by done. cbn [negb].
    assert (Hne : nonempty (gf_end g) = true)
      by (unfold nonempty; by rewrite bool_decide_eq_false_2).
    rewrite Hne, obj_get_set. by rewrite decide_True.
Qed.

Lemma merged_filters_precedence_witness :
  ∃ cfg,
    sample_registry !! "cash-status" = Some cfg
    ∧ obj_get (merged_filters cfg (GlobalFilters "" "")
                 (Options (Some [("page_size", VStr "")]) false)) "page_size"
      = Some (VStr "").
Proof.
  eexists. split; [vm_compute; reflexivity |].
  match goal with
  | |- obj_get (merged_filters ?cfg ?g (Options (Some ?f) ?u)) ?k = _ =>
      exact (eq_trans
               (proj1 (merged_filters_precedence cfg g f u k
                         ltac:(apply (bool_decide_unpack _); by vm_compute)))
               eq_refl)
  end.
Defined.








(** ** The URL of the eager variant *)

Lemma join_nil_inv sep (x : string) (l : list string) : join sep (x :: l) = "" → x = "".
Proof. destruct l as [|y l]; cbn [join]; [done |]. by destruct x. Qed.

Lemma params_toString_nonempty (nv : string * string) (p : URLSearchParams) :
  params_toString (nv :: p) ≠ "".
Proof.
  unfold params_toString. rewrite fmap_cons. intros H%join_nil_inv.
  destruct (urlencode nv.1); discriminate H.
Qed.

Lemma params_set_nonempty name value (p : URLSearchParams) : params_set name value p ≠ [].
Proof. destruct p as [|[n v] p]; cbn [params_set]; [done |]. by destruct (decide _). Qed.

Lemma Eager_fetch_params_nil cfg (f : list (string * jsval)) :
  Eager.fetch_params cfg f = [] ↔ Forall (λ kv, Eager.is_blank kv.2 = true) f.
Proof.
  unfold Eager.fetch_params.
  assert (Hgen : ∀ acc,
    fold_left
      (λ params kv,
         if Eager.is_blank kv.2 then params
         else params_set (param_name cfg kv.1) (ToString kv.2) params) f acc = []
    ↔ acc = [] ∧ Forall (λ kv : string * jsval, Eager.is_blank kv.2 = true) f).
  { induction f as [|[k v] f IH]; intros acc; cbn [fold_left fst snd].
    - split; [by intros -> | by intros [-> _]].
    - rewrite IH, Forall_cons. cbn [snd]. destruct (Eager.is_blank v).
      + split; [by intros [? ?] | by intros [? [_ ?]]].
      + split; [intros [H _]; by apply params_set_nonempty in H | intros [_ [? _]]; done]. }
  rewrite Hgen. split; [by intros [_ ?] | done].
Qed.

(** X6.  The eager variant requests the bare endpoint when no filter
    survives (every merged value is [null], [undefined] or [""]), and the
    endpoint, a question mark and a non-empty query otherwise; the cached
    variant always appends the question mark, also before an empty query. *)
Theorem Eager_request_url_without_query (cfg : descriptor) (g : global_filters)
    (opts : options) :
  let blank := Forall (λ kv : string * jsval, Eager.is_blank kv.2 = true)
                 (Eager.merged_filters cfg g opts) in
  (blank → Eager.request_url cfg g opts = endpoint cfg)
  ∧ (¬ blank →
     ∃ qs, qs ≠ "" ∧ Eager.request_url cfg g opts = endpoint cfg +:+ "?" +:+ qs)
  ∧ (Forall (λ kv : string * jsval, truthy kv.2 = false) (merged_filters cfg g opts) →
     request_url cfg g opts = endpoint cfg +:+ "?").
Proof.
  intros blank. unfold blank, Eager.request_url. split; [| split].
  - intros Hb. apply (Eager_fetch_params_nil cfg) in Hb. by rewrite Hb.
  - intros Hnb. destruct (Eager.fetch_params cfg _) as [|nv p] eqn:Hp.
    + apply Eager_fetch_params_nil in Hp. by destruct Hnb.
    + exists (params_toString (nv :: p)). split; [apply params_toString_nonempty |].
      unfold nonempty. by rewrite bool_decide_eq_false_2 by apply params_toString_nonempty.
  - intros Hf. unfold request_url. rewrite fetch_params_omap.
    assert (Hnil : omap param_of (merged_filters cfg g opts) = []).
    { induction Hf as [|[k v] f Hv _ IH]; [done |].
      cbn [omap list_omap]. unfold param_of at 1. cbn [snd] in *. by rewrite Hv. }
    by rewrite Hnil.
Qed.

Lemma Eager_request_url_without_query_witness :
  ∃ cfg,
    sample_registry !! "inventory-cost" = Some cfg
    ∧ Eager.request_url cfg (GlobalFilters "2024-01-01" "") (Options None true)
      = "/app/reportes/costo-inventario/".
Proof.
  eexists. split; [vm_compute; reflexivity |].
  match goal with
  | |- Eager.request_url ?cfg ?g ?o = _ =>
      exact (eq_trans
               (proj1 (Eager_request_url_without_query cfg g o)
                  ltac:(by vm_compute; constructor))
               eq_refl)
  end.
Defined.

(** ** A row that cannot be rendered *)

(** X7.  When a row of the payload makes [renderRow] throw (in the
    registry, a [null] row), the run's success handler stops in
    [renderTable]: the summary slots have already been rewritten, the table
    body keeps its previous content, [loadedOnce] is not set, the loading
    flag is cleared and the error toast is shown. *)
Theorem render_failure_keeps_table (s : dashboard) (type : string) (m : modal)
    (tb : table_body) (data row : json) :
  modals s !! type = Some m →
  tableBody m = Some tb →
  row ∈ extract_rows (modal_config m) data →
  renderRow (modal_config m) row = None →
  ∃ m',
    modals (react (ModalRun type) (Fulfilled data) s) !! type = Some m'
    ∧ tableBody m' = Some tb
    ∧ summaryNodes m' = summaryNodes (renderSummary data m)
    ∧ loadedOnce m' = loadedOnce m
    ∧ dataset_loading m' = Some "false"
    ∧ toasts (react (ModalRun type) (Fulfilled data) s)
      = toasts s ++ [("Ocurrió un error al generar el reporte.", "error")].
Proof.
  intros Hm Htb Hrow Hthrow. cbn [react]. rewrite Hm.
  assert (Hrender : render data m = (renderSummary data m, false)).
  { unfold render, renderTable. cbn [renderSummary set_summaryNodes tableBody modal_config].
    rewrite Htb. destruct (extract_rows (modal_config m) data) as [|r rows] eqn:Hrows;
      [by apply elem_of_nil in Hrow |].
    assert (Hnone : render_rows (modal_config m) (r :: rows) = None).
    { apply mapM_None. apply Exists_exists. eauto. }
    by rewrite Hnone. }
  rewrite Hrender. eexists. split; [cbn; apply lookup_insert_eq |].
  by repeat split.
Qed.

Lemma render_failure_keeps_table_witness :
  let s := step (ClickRun "product-sales") sample_page in
  let data := JObj [("rows", JArr [JNull])] in
  ∃ m',
    modals (react (ModalRun "product-sales") (Fulfilled data) s) !! "product-sales" = Some m'
    ∧ tableBody m' = Some (TableBody (Some 5) "")
    ∧ loadedOnce m' = false.
Proof.
  intros s data.
  assert (Hm : ∃ m, modals s !! "product-sales" = Some m)
    by (eexists; vm_compute; reflexivity).
  destruct Hm as [m Hm].
  assert (Hm' : Some m = modals s !! "product-sales") by done.
  vm_compute in Hm'. injection Hm' as ->.
  match type of Hm with
  | _ = Some ?m0 =>
      destruct (render_failure_keeps_table s "product-sales" m0
                  (TableBody (Some 5) "") data JNull Hm eq_refl
                  ltac:(vm_compute; apply list_elem_of_here) eq_refl)
        as (m' & Hm1 & Htb & _ & Hl & _)
  end.
  exists m'. split; [exact Hm1 |]. split; [exact Htb | exact Hl].
Defined.

(** ** What fetching and rendering leave alone *)

(** [same_shell m m']: the modal is shown or hidden as before, with the same
    focus to restore and the same filter inputs. *)
Definition same_shell (m m' : modal) : Prop :=
  modal_type m' = modal_type m
  ∧ modal_config m' = modal_config m
  ∧ isOpen m' = isOpen m
  ∧ previousActive m' = previousActive m
  ∧ is_visible m' = is_visible m
  ∧ filterNodes m' = filterNodes m.

(** [same_card c c']: the card has the same trigger and is observed or not
    as before. *)
Definition same_card (c c' : card) : Prop :=
  trigger c' = trigger c ∧ observed c' = observed c.

Record background (s s' : dashboard) : Prop := Background {
  bg_activeModal : activeModal s' = activeModal s;
  bg_activeElement : activeElement s' = activeElement s;
  bg_cards : cards s' = cards s;
  bg_modals : ∀ type, option_Forall2 same_shell (modals s !! type) (modals s' !! type);
  bg_cardElements : Forall2 same_card (cardElements s) (cardElements s')
}.

Lemma same_shell_refl m : same_shell m m.
Proof. by repeat split. Qed.

Lemma same_shell_trans m1 m2 m3 : same_shell m1 m2 → same_shell m2 m3 → same_shell m1 m3.
Proof.
  intros (? & ? & ? & ? & ? & ?) (? & ? & ? & ? & ? & ?). repeat split; congruence.
Qed.

Lemma same_card_refl c : same_card c c.
Proof. by split. Qed.

Lemma same_card_trans c1 c2 c3 : same_card c1 c2 → same_card c2 c3 → same_card c1 c3.
Proof. intros [? ?] [? ?]. split; congruence. Qed.

Lemma shells_refl (ms : gmap string modal) type :
  option_Forall2 same_shell (ms !! type) (ms !! type).
Proof. destruct (ms !! type); constructor. apply same_shell_refl. Qed.

Lemma cards_refl (l : list card) : Forall2 same_card l l.
Proof. induction l; constructor; [apply same_card_refl | done]. Qed.

Lemma cards_trans (l1 l2 l3 : list card) :
  Forall2 same_card l1 l2 → Forall2 same_card l2 l3 → Forall2 same_card l1 l3.
Proof.
  intros H. revert l3. induction H as [|c1 c2 l1 l2 Hc _ IH]; intros l3 H';
    inversion H'; subst; constructor; eauto using same_card_trans.
Qed.

Lemma background_refl s : background s s.
Proof. split; [done | done | done | apply shells_refl | apply cards_refl]. Qed.

Lemma background_trans s1 s2 s3 : background s1 s2 → background s2 s3 → background s1 s3.
Proof.
  intros [Ha1 He1 Hc1 Hm1 Hx1] [Ha2 He2 Hc2 Hm2 Hx2]. split; try congruence.
  - intros type. specialize (Hm1 type). specialize (Hm2 type).
    destruct Hm1 as [m1 m2 H12|]; inversion Hm2; subst; constructor.
    eauto using same_shell_trans.
  - by eapply cards_trans.
Qed.

Lemma background_same s s' :
  activeModal s' = activeModal s → activeElement s' = activeElement s →
  cards s' = cards s → modals s' = modals s → cardElements s' = cardElements s →
  background s s'.
Proof.
  intros Ha He Hc Hm Hx. split; try done.
  - intros type. rewrite Hm. apply shells_refl.
  - rewrite Hx. apply cards_refl.
Qed.

Lemma alter_same_card (f : card → card) (i : nat) (l : list card) :
  (∀ c, same_card c (f c)) → Forall2 same_card l (alter f i l).
Proof.
  intros Hf. revert i. induction l as [|c l IH]; intros [|i]; cbn; constructor;
    auto using same_card_refl, cards_refl.
Qed.

Lemma set_modal_background s type m m' :
  modals s !! type = Some m → same_shell m m' →
  background s (set_modals (insert type m') s).
Proof.
  intros Hm Hs. split; cbn; try done; [| apply cards_refl].
  intros type'. destruct (decide (type = type')) as [<-|Hne].
  - rewrite lookup_insert_eq, Hm. by constructor.
  - rewrite lookup_insert_ne by done. apply shells_refl.
Qed.

Lemma setCardLoading_background i b s : background s (setCardLoading i b s).
Proof.
  split; cbn; try done; [intros; apply shells_refl |].
  apply alter_same_card. by intros c.
Qed.

Lemma updateCardValue_background i v s : background s (updateCardValue i v s).
Proof.
  split; cbn; try done; [intros; apply shells_refl |].
  apply alter_same_card. by intros c.
Qed.

Lemma render_same_shell data m : same_shell m (render data m).1.
Proof.
  unfold render, renderTable, renderSummary.
  destruct (tableBody _); [| by repeat split].
  destruct (extract_rows _ _); [by repeat split |].
  destruct (render_rows _ _); by repeat split.
Qed.

Lemma react_background rx r s : background s (react rx r s).
Proof.
  destruct rx as [i cfg K|i cfg|type]; cbn [react].
  - match goal with |- background s (setCardLoading i false (set_loadingPromises _ ?s1)) =>
      apply (background_trans _ s1);
        [| apply (background_trans _ (set_loadingPromises (delete K) s1));
           [by apply background_same | apply setCardLoading_background]]
    end.
    destruct r as [data|e].
    + apply (background_trans _ (set_cache (insert K data) s));
        [by apply background_same | apply updateCardValue_background].
    + apply (background_trans _ (updateCardValue i em_dash s));
        [apply updateCardValue_background | by apply background_same].
  - destruct r; apply updateCardValue_background.
  - destruct (modals s !! type) as [m|] eqn:Hm; [| apply background_refl].
    destruct r as [data|e].
    + pose proof (render_same_shell data m) as Hsh.
      destruct (render data m) as [m1 ok]; cbn [fst] in Hsh. destruct ok.
      * apply (set_modal_background s type m); [done |].
        eapply same_shell_trans; [exact Hsh | by repeat split].
      * apply (background_trans _ (set_modals (insert type (setLoading false m1)) s));
          [| by apply background_same].
        apply (set_modal_background s type m); [done |].
        eapply same_shell_trans; [exact Hsh | by repeat split].
    + apply (background_trans _ (set_modals (insert type (setLoading false m)) s));
        [| by apply background_same].
      apply (set_modal_background s type m); [done | by repeat split].
Qed.

Lemma run_reactions_background r waiting s : background s (run_reactions r waiting s).
Proof.
  unfold run_reactions. revert s.
  induction waiting as [|x waiting IH]; intros s; cbn [fold_left]; [apply background_refl |].
  eapply background_trans; [apply react_background | apply IH].
Qed.

Lemma attach_background pr rx s : background s (attach pr rx s).
Proof.
  unfold attach. destruct pr as [r|p]; [apply react_background |].
  destruct (results s !! p); [apply react_background | by apply background_same].
Qed.

Lemma fetchReport_background type opts s : background s (fetchReport type opts s).1.
Proof.
  unfold fetchReport. destruct (config s !! type); [| apply background_refl].
  destruct (cache s !! _); [apply background_refl |].
  destruct (loadingPromises s !! _); [apply background_refl | by apply background_same].
Qed.

Lemma settle_background p b s : background s (settle p b s).
Proof.
  unfold settle. destruct (requests s !! p) as [rq|]; [| apply background_refl].
  destruct (results s !! p); [apply background_refl |].
  destruct (request_outcome b) as [r|]; [| apply background_refl].
  match goal with |- context [fold_left ?f ?w ?s0] =>
    change (fold_left f w s0) with (run_reactions r w s0);
    eapply background_trans; [| apply run_reactions_background]
  end.
  destruct r; by apply background_same.
Qed.

Lemma loadCardData_background i type s : background s (loadCardData i type s).
Proof.
  unfold loadCardData. destruct (config s !! type) as [cfg|]; [| apply background_refl].
  destruct (cache s !! _); [apply updateCardValue_background |].
  destruct (loadingPromises s !! _); [apply attach_background |].
  pose proof (fetchReport_background type (Options None true) (setCardLoading i true s)) as Hf.
  destruct (fetchReport type _ (setCardLoading i true s)) as [s1 pr]. cbn [fst] in Hf.
  apply (background_trans _ (setCardLoading i true s)); [apply setCardLoading_background |].
  apply (background_trans _ s1); [done |].
  eapply background_trans; [| apply attach_background].
  destruct pr; [apply background_refl | by apply background_same].
Qed.

Lemma refreshCards_background s : background s (refreshCards s).
Proof.
  unfold refreshCards.
  assert (H : ∀ l s, background s (fold_left (λ acc tc, loadCardData tc.2 tc.1 acc) l s)).
  { intros l. induction l as [|tc l IH]; intros s0; cbn [fold_left]; [apply background_refl |].
    eapply background_trans; [apply loadCardData_background | apply IH]. }
  apply H.
Qed.

Lemma runReport_background type s : background s (runReport type s).
Proof.
  unfold runReport. destruct (modals s !! type) as [m|] eqn:Hm; [| apply background_refl].
  match goal with |- context [fetchReport ?t ?o ?s0] =>
    pose proof (fetchReport_background t o s0) as Hf;
    destruct (fetchReport t o s0) as [s1 pr]; cbn [fst] in Hf;
    apply (background_trans _ s0);
      [apply (set_modal_background s type m); [done | by repeat split] |];
    apply (background_trans _ s1); [done | apply attach_background]
  end.
Qed.

Lemma clearCache_background s : background s (clearCache s).
Proof.
  split; cbn; try done; [intros; apply shells_refl |].
  induction (cardElements s); constructor; [by split | done].
Qed.

(** ** Opening and closing *)

(** What [open] does to a closed modal and to the others. *)
Lemma modal_open_shell (s : dashboard) (type : string) (m : modal) :
  modals s !! type = Some m → isOpen m = false →
  activeModal (modal_open type s) = Some type
  ∧ activeElement (modal_open type s) = activeElement s
  ∧ (∃ m', modals (modal_open type s) !! type = Some m'
           ∧ isOpen m' = true ∧ is_visible m' = true
           ∧ previousActive m' = activeElement s)
  ∧ ∀ type', type' ≠ type →
      option_Forall2 same_shell (modals s !! type') (modals (modal_open type s) !! type').
Proof.
  intros Hm Ho. unfold modal_open. rewrite Hm, Ho.
  set (m1 := syncWithGlobalFilters (globalFilters s) (show (activeElement s) m)).
  set (s1 := setActiveModal (Some type) (set_modals (insert type m1) s)).
  assert (Hm1 : isOpen m1 = true ∧ is_visible m1 = true
                ∧ previousActive m1 = activeElement s).
  { unfold m1, syncWithGlobalFilters. by destruct (bool_decide _). }
  assert (H1 : activeModal s1 = Some type ∧ activeElement s1 = activeElement s
               ∧ modals s1 !! type = Some m1
               ∧ ∀ type', type' ≠ type → modals s1 !! type' = modals s !! type').
  { repeat split; cbn; [apply lookup_insert_eq |].
    intros type' Hne. by rewrite lookup_insert_ne. }
  destruct H1 as (Ha & He & Hl & Hothers).
  destruct (loadedOnce m).
  - repeat split; try done; [by exists m1 |].
    intros type' Hne. rewrite Hothers by done. apply shells_refl.
  - pose proof (runReport_background type s1) as [Ha' He' _ Hm' _].
    split; [congruence |]. split; [congruence |]. split.
    + specialize (Hm' type). rewrite Hl in Hm'. inversion Hm' as [? m2 Hsh|]; subst.
      exists m2. destruct Hsh as (_ & _ & Hio & Hpa & Hv & _).
      destruct Hm1 as (? & ? & ?). repeat split; congruence.
    + intros type' Hne. specialize (Hm' type'). by rewrite Hothers in Hm'.
Qed.



(** X9.  The dashboard remembers one active modal only.  When a second
    modal is opened over a first one, [Escape] closes the second and clears
    the active modal; the first is still open and visible, and [Escape] no
    longer does anything. *)
Theorem escape_leaves_first_modal_open (s : dashboard) (first second : string)
    (m1 m2 : modal) :
  modals s !! first = Some m1 →
  modals s !! second = Some m2 →
  first ≠ second →
  isOpen m1 = false →
  isOpen m2 = false →
  let s' := step KeyEscape (openModal second (openModal first s)) in
  activeModal s' = None
  ∧ (∃ m, modals s' !! first = Some m ∧ isOpen m = true ∧ is_visible m = true)
  ∧ (∃ m, modals s' !! second = Some m ∧ isOpen m = false)
  ∧ step KeyEscape s' = s'.
Proof.
  intros H1 H2 Hne Ho1 Ho2 s'. unfold openModal in s'.
  destruct (modal_open_shell s first m1 H1 Ho1)
    as (_ & _ & (m1' & Hm1' & Ho1' & Hv1' & _) & Hother1).
  pose proof (Hother1 second (not_eq_sym Hne)) as Hsecond. rewrite H2 in Hsecond.
  inversion Hsecond as [? m2' Hsh2 Heq1 Heq2|]; subst. symmetry in Heq2.
  assert (Ho2' : isOpen m2' = false) by (destruct Hsh2 as (_ & _ & -> & _); done).
  destruct (modal_open_shell _ second m2' Heq2 Ho2')
    as (Ha & _ & (m2'' & Hm2'' & Ho2'' & _) & Hother2).
  pose proof (Hother2 first Hne) as Hfirst. rewrite Hm1' in Hfirst.
  inversion Hfirst as [? m1'' Hsh1 Heq3 Heq4|]; subst. symmetry in Heq4.
  destruct Hsh1 as (_ & _ & Hio1 & _ & Hiv1 & _).
  assert (Hs' : activeModal s' = None
                ∧ modals s' !! first = Some m1''
                ∧ modals s' !! second = Some (hide m2'')).
  { unfold s'. cbn [step]. rewrite Ha. unfold modal_close. rewrite Hm2'', Ho2''.
    destruct (previousActive m2''); cbn;
      by rewrite lookup_insert_eq, lookup_insert_ne. }
  destruct Hs' as (Hact & Hf & Hs).
  split; [done |]. split; [exists m1''; repeat split; congruence |].
  split; [by eexists |]. cbn [step]. by rewrite Hact.
Qed.

(** A page with two modals and no card. *)
Definition two_modal_page : dashboard :=
  init sample_registry true []
    [ModalElement "total-sales" [] [] None None;
     ModalElement "product-sales" [] [] None None]
    None.

Lemma escape_leaves_first_modal_open_witness :
  let s' := step KeyEscape
              (openModal "product-sales" (openModal "total-sales" two_modal_page)) in
  activeModal s' = None
  ∧ ∃ m, modals s' !! "total-sales" = Some m ∧ isOpen m = true ∧ is_visible m = true.
Proof.
  intros s'.
  assert (H1 : ∃ m, modals two_modal_page !! "total-sales" = Some m ∧ isOpen m = false)
    by (eexists; split; vm_compute; reflexivity).
  assert (H2 : ∃ m, modals two_modal_page !! "product-sales" = Some m ∧ isOpen m = false)
    by (eexists; split; vm_compute; reflexivity).
  destruct H1 as (m1 & H1 & Ho1). destruct H2 as (m2 & H2 & Ho2).
  destruct (escape_leaves_first_modal_open two_modal_page "total-sales" "product-sales"
              m1 m2 H1 H2 ltac:(discriminate) Ho1 Ho2) as (Ha & Hfirst & _).
  split; [exact Ha | exact Hfirst].
Defined.

(** ** The observer of the cards *)

(** [fades c c']: the card has the same trigger, and it is not observed
    again once it is not. *)
Definition fades (c c' : card) : Prop :=
  trigger c' = trigger c ∧ (observed c' = true → observed c = true).

Lemma fades_trans (l1 l2 l3 : list card) :
  Forall2 fades l1 l2 → Forall2 fades l2 l3 → Forall2 fades l1 l3.
Proof.
  intros H. revert l3. induction H as [|c1 c2 l1 l2 [Ht Ho] _ IH]; intros l3 H';
    inversion H' as [|? c3 ? ? [Ht' Ho']]; subst; constructor; [| eauto].
  split; [congruence | auto].
Qed.

Lemma same_card_fades (l l' : list card) : Forall2 same_card l l' → Forall2 fades l l'.
Proof.
  induction 1 as [|c c' l l' [Ht Ho] _ IH]; constructor; [| done].
  split; [done | congruence].
Qed.

Lemma background_fades s s' : background s s' → Forall2 fades (cardElements s) (cardElements s').
Proof. intros [_ _ _ _ H]. by apply same_card_fades. Qed.

Lemma fades_eq s s' :
  cardElements s' = cardElements s → Forall2 fades (cardElements s) (cardElements s').
Proof. intros ->. apply same_card_fades, cards_refl. Qed.

Lemma modal_open_fades type s : Forall2 fades (cardElements s) (cardElements (modal_open type s)).
Proof.
  unfold modal_open. destruct (modals s !! type) as [m|]; [| by apply fades_eq].
  destruct (isOpen m); [by apply fades_eq |].
  destruct (loadedOnce m); [by apply fades_eq |].
  match goal with |- context [runReport type ?s1] =>
    apply (fades_trans _ (cardElements s1)); [by apply fades_eq |];
    apply background_fades, runReport_background
  end.
Qed.

Lemma modal_close_fades type s :
  Forall2 fades (cardElements s) (cardElements (modal_close type s)).
Proof.
  unfold modal_close. destruct (modals s !! type) as [m|]; [| by apply fades_eq].
  destruct (isOpen m); [| by apply fades_eq].
  destruct (previousActive m); by apply fades_eq.
Qed.

Lemma mark_loaded_fades i s : Forall2 fades (cardElements s) (cardElements (mark_loaded i s)).
Proof.
  cbn. generalize (cardElements s) as l. intros l. revert i.
  induction l as [|c l IH]; intros [|i]; cbn; constructor; try done;
    try (split; [done | auto]); try apply same_card_fades, cards_refl.
Qed.

Lemma step_fades e s : Forall2 fades (cardElements s) (cardElements (step e s)).
Proof.
  destruct e as [i| |start finish|i|type| |type|type i value|p b]; cbn [step].
  - destruct (cardElements s !! i) as [c|]; [| by apply fades_eq].
    destruct (_ && _); [| by apply fades_eq].
    eapply fades_trans; [apply background_fades, loadCardData_background |].
    apply mark_loaded_fades.
  - apply background_fades, refreshCards_background.
  - set (s1 := set_globalFilters _ s).
    apply (fades_trans _ (cardElements (clearCache s1)));
      [apply (fades_trans _ (cardElements s1));
         [by apply fades_eq | apply background_fades, clearCache_background] |].
    apply (fades_trans _ (cardElements (refreshCards (clearCache s1))));
      [apply background_fades, refreshCards_background | by apply fades_eq].
  - destruct (cardElements s !! i) as [c|]; [| by apply fades_eq].
    destruct (config s !! trigger c); [apply modal_open_fades | by apply fades_eq].
  - apply modal_close_fades.
  - destruct (activeModal s); [apply modal_close_fades | by apply fades_eq].
  - apply background_fades, runReport_background.
  - by apply fades_eq.
  - apply background_fades, settle_background.
Qed.

Lemma run_fades trace s : Forall2 fades (cardElements s) (cardElements (run trace s)).
Proof.
  unfold run. revert s.
  induction trace as [|e trace IH]; intros s; cbn [fold_left];
    [apply same_card_fades, cards_refl |].
  eapply fades_trans; [apply step_fades | apply IH].
Qed.

(** X10.  The observer loads a card at most once.  A card that is observed,
    has a trigger and is not loaded gets loaded and unobserved when it
    intersects the viewport.  No event observes a card again, not even the
    range button, which removes the loaded marker: whatever happens next, a
    later intersection of an unobserved card changes nothing. *)
Theorem observer_loads_a_card_once (s : dashboard) (i : nat) (c : card) :
  cardElements s !! i = Some c →
  (observed c = true → trigger c ≠ "" → loaded c = false →
   ∃ c', cardElements (step (Intersecting i) s) !! i = Some c'
         ∧ loaded c' = true ∧ observed c' = false)
  ∧ (observed c = false →
     ∀ trace, step (Intersecting i) (run trace s) = run trace s).
Proof.
  intros Hc. split.
  - intros Ho Ht Hl. cbn [step]. rewrite Hc, Ho, Hl.
    unfold nonempty. rewrite bool_decide_eq_false_2 by done. cbn [negb andb].
    pose proof (loadCardData_background i (trigger c) s) as [_ _ _ _ Hcards].
    destruct (Forall2_lookup_l _ _ _ _ _ Hcards Hc) as (c1 & Hc1 & _).
    cbn. rewrite list_lookup_alter_eq, Hc1. cbn. by eexists.
  - intros Ho trace.
    destruct (Forall2_lookup_l _ _ _ _ _ (run_fades trace s) Hc) as (c' & Hc' & _ & Hobs).
    cbn [step]. rewrite Hc'. destruct (observed c') eqn:Ho'; [| done].
    specialize (Hobs eq_refl). congruence.
Qed.

Lemma observer_loads_a_card_once_witness :
  let s := step (Intersecting 0) sample_page in
  step (Intersecting 0)
    (run [ApplyRange (Some "2024-01-01") None; Settle 0 Silent] s)
  = run [ApplyRange (Some "2024-01-01") None; Settle 0 Silent] s.
Proof.
  intros s.
  assert (Hc : ∃ c, cardElements s !! 0 = Some c ∧ observed c = false)
    by (eexists; split; vm_compute; reflexivity).
  destruct Hc as (c & Hc & Ho).
  exact (proj2 (observer_loads_a_card_once s 0 c Hc) Ho _).
Defined.

(** ** Modals and the registry *)















(** ** The registry and the cache never lie *)

(** A state is sound when the settled promises are promises of the log,
    every entry of the in-flight registry is a pending request of its key,
    every card reaction that writes under a key waits for a request of that
    key, and every cached payload was received for its key. *)
Record sound (s : dashboard) : Prop := Sound {
  snd_results : ∀ p r, results s !! p = Some r → p < length (requests s);
  snd_registry : ∀ K p, loadingPromises s !! K = Some p →
                 ∃ rq, pending s p rq ∧ req_key rq = K;
  snd_leaders : ∀ p i cfg K, (p, CardLeader i cfg K) ∈ reactions s →
                ∃ rq, pending s p rq ∧ req_key rq = K;
  snd_cache : ∀ K data, cache s !! K = Some data →
              ∃ p rq, requests s !! p = Some rq ∧ req_key rq = K
                      ∧ results s !! p = Some (Fulfilled data)
}.

Lemma init_sound config lazy cardElements modalElements focus :
  sound (init config lazy cardElements modalElements focus).
Proof.
  split; cbn.
  - by intros p r ?.
  - intros K p H. by rewrite lookup_empty in H.
  - intros p i cfg K H. by apply elem_of_nil in H.
  - intros K data H. by rewrite lookup_empty in H.
Qed.

Lemma sound_same (s s' : dashboard) :
  sound s →
  requests s' = requests s → results s' = results s → reactions s' = reactions s →
  loadingPromises s' = loadingPromises s → cache s' = cache s →
  sound s'.
Proof.
  intros [H1 H2 H3 H4] Hq Hr Hx Hl Hc.
  split; unfold pending; rewrite ?Hq, ?Hr, ?Hx, ?Hl, ?Hc; done.
Qed.

(** Removing registry entries keeps a state sound. *)
Lemma sound_delete K (s : dashboard) :
  sound s → sound (set_loadingPromises (delete K) s).
Proof.
  intros [H1 H2 H3 H4]. split; cbn; try done.
  intros K' p [_ H]%lookup_delete_Some. by apply H2.
Qed.

Lemma react_other_sound rx r s : ¬ is_leader rx → sound s → sound (react rx r s).
Proof.
  intros Hrx Hs. destruct (react_static rx r s) as (_ & _ & Hq & Hr & Hx & _).
  apply (sound_same s); try done.
  - rewrite react_loadingPromises. by destruct rx.
  - rewrite react_cache. by destruct rx; [destruct Hrx | |].
Qed.

(** A card leader that reacts to the result of its own request. *)
Lemma react_leader_sound i cfg p rq r s :
  requests s !! p = Some rq → results s !! p = Some r →
  sound s → sound (react (CardLeader i cfg (req_key rq)) r s).
Proof.
  intros Hrq Hres [H1 H2 H3 H4].
  destruct (react_static (CardLeader i cfg (req_key rq)) r s) as (_ & _ & Hq & Hr & Hx & _).
  split; unfold pending; rewrite ?Hq, ?Hr, ?Hx, ?react_loadingPromises, ?react_cache; try done.
  - cbn. intros K' q [_ H]%lookup_delete_Some. by apply H2.
  - cbn. destruct r as [data|e]; [| done].
    intros K' data' [[<- <-]|[_ H]]%lookup_insert_Some; [by exists p, rq | by apply H4].
Qed.

Lemma attach_other_sound pr rx s : ¬ is_leader rx → sound s → sound (attach pr rx s).
Proof.
  intros Hrx Hs. unfold attach. destruct pr as [r|p]; [by apply react_other_sound |].
  destruct (results s !! p) eqn:Hres; [by apply react_other_sound |].
  pose proof Hs as [H1 H2 H3 H4]. split; cbn; try done.
  intros q i cfg K [Hin|Hin%list_elem_of_singleton]%elem_of_app; [eauto |].
  simplify_eq. exfalso. by apply Hrx.
Qed.

Lemma attach_leader_sound p rq i cfg s :
  pending s p rq → sound s →
  sound (attach (InFlight p) (CardLeader i cfg (req_key rq)) s).
Proof.
  intros Hp Hs. unfold attach. destruct Hp as [Hrq Hres]. rewrite Hres.
  pose proof Hs as [H1 H2 H3 H4]. split; cbn; try done.
  intros q i' cfg' K [Hin|Hin%list_elem_of_singleton]%elem_of_app; [eauto |].
  simplify_eq. by exists rq.
Qed.

Lemma new_request_sound (K url : string) (s : dashboard) :
  sound s →
  let s' := set_loadingPromises (insert K (length (requests s)))
              (set_requests (λ l, l ++ [Request K url]) s) in
  sound s' ∧ pending s' (length (requests s)) (Request K url).
Proof.
  intros [H1 H2 H3 H4] s'.
  assert (Hnew : results s !! length (requests s) = None).
  { destruct (results s !! length (requests s)) eqn:Hr; [| done].
    apply H1 in Hr. lia. }
  assert (Hpend : ∀ p rq, pending s p rq → pending s' p rq).
  { intros p rq [Hrq Hres]. split; cbn; [by apply lookup_app_l_Some | done]. }
  assert (Hthis : pending s' (length (requests s)) (Request K url)).
  { split; cbn; [| done]. rewrite lookup_app_r by lia. by rewrite Nat.sub_diag. }
  split; [split |]; cbn; try done.
  - intros p r Hr%H1. rewrite length_app. lia.
  - intros K' p [[<- <-]|[_ H]]%lookup_insert_Some; [by eexists |].
    destruct (H2 _ _ H) as (rq & ? & ?). eauto.
  - intros p i cfg K' Hin. destruct (H3 _ _ _ _ Hin) as (rq & ? & ?). eauto.
  - intros K' data Hc. destruct (H4 _ _ Hc) as (p & rq & Hrq & ? & ?).
    exists p, rq. split; [by apply lookup_app_l_Some | done].
Qed.

Lemma fetchReport_sound type opts s :
  sound s →
  sound (fetchReport type opts s).1
  ∧ ∀ p, (fetchReport type opts s).2 = InFlight p →
         ∃ rq, pending (fetchReport type opts s).1 p rq
               ∧ req_key rq = generateCacheKey (globalFilters s) type opts.
Proof.
  intros Hs. unfold fetchReport. destruct (config s !! type) as [cfg|]; [| done].
  destruct (cache s !! _) eqn:Hc; [done |].
  destruct (loadingPromises s !! _) as [q|] eqn:Hl.
  - split; [done |]. cbn. intros p [= <-]. by apply (snd_registry s Hs).
  - match goal with |- context [Request ?K ?url] =>
      destruct (new_request_sound K url s Hs) as [Hs' Hp]
    end.
    split; [done |]. cbn. intros p [= <-]. eauto.
Qed.

Lemma run_reactions_sound p rq r (waiting : list (nat * reaction)) s :
  requests s !! p = Some rq → results s !! p = Some r →
  Forall (λ x, keyed (req_key rq) x.2) waiting →
  sound s → sound (run_reactions r waiting s).
Proof.
  unfold run_reactions. intros Hrq Hres Hw. revert s Hrq Hres.
  induction Hw as [|[q rx] waiting Hx _ IH]; intros s Hrq Hres Hs;
    cbn [fold_left snd] in *; [done |].
  destruct (react_static rx r s) as (_ & _ & Hq & Hr & _).
  apply IH; [by rewrite Hq | by rewrite Hr |].
  destruct rx as [i cfg K| |]; cbn in Hx.
  - subst K. by apply (react_leader_sound i cfg p).
  - by apply react_other_sound; [intros [] |].
  - by apply react_other_sound; [intros [] |].
Qed.

Lemma settle_sound p b s : sound s → sound (settle p b s).
Proof.
  intros Hs. destruct (requests s !! p) as [rq|] eqn:Hrq;
    [| rewrite settle_not_pending; [done | intros rq [? _]; congruence]].
  destruct (results s !! p) eqn:Hres;
    [rewrite settle_not_pending; [done | intros rq' [_ ?]; congruence] |].
  destruct (request_outcome b) as [r|] eqn:Hb; [| unfold settle; by rewrite Hrq, Hres, Hb].
  assert (Hp : pending s p rq) by done.
  rewrite (settle_pending s p b rq r Hp Hb).
  pose proof Hs as [H1 H2 H3 H4].
  apply (run_reactions_sound p rq).
  - by destruct r.
  - destruct r; cbn; apply lookup_insert_eq.
  - apply Forall_forall. intros [q rx] [Hq Hin]%list_elem_of_filter. cbn in Hq. subst q.
    destruct rx as [i cfg K| |]; cbn; try done.
    destruct (H3 _ _ _ _ Hin) as (rq' & [Hrq' _] & <-). congruence.
  - assert (Hpend : ∀ q rq', pending s q rq' → q ≠ p →
              requests s !! q = Some rq' ∧ <[p:=r]> (results s) !! q = None).
    { intros q rq' [? ?] Hne. split; [done | by rewrite lookup_insert_ne]. }
    split.
    + intros q r'. destruct r; cbn; (intros [[-> _]|[_ Hr]]%lookup_insert_Some;
        [by apply lookup_lt_Some in Hrq | eauto]).
    + intros K q Hl.
      assert (Hl' : K ≠ req_key rq ∧ loadingPromises s !! K = Some q).
      { destruct r; cbn in Hl; apply lookup_delete_Some in Hl as [? ?]; eauto. }
      destruct Hl' as [HK Hl']. destruct (H2 _ _ Hl') as (rq' & Hq & Hkey).
      assert (q ≠ p) by (intros ->; destruct Hq as [? _]; congruence).
      exists rq'. split; [| done]. destruct (Hpend _ _ Hq) as [? ?]; [done |].
      split; by destruct r.
    + intros q i cfg K [Hne Hin]%list_elem_of_filter. cbn in Hne.
      assert (Hin' : (q, CardLeader i cfg K) ∈ reactions s) by (by destruct r).
      destruct (H3 _ _ _ _ Hin') as (rq' & Hq & HK). exists rq'. split; [| done].
      destruct (Hpend _ _ Hq) as [? ?]; [done |]. split; by destruct r.
    + intros K data Hc.
      assert (Hc' : (∃ d, r = Fulfilled d ∧ K = req_key rq ∧ data = d)
                    ∨ cache s !! K = Some data).
      { destruct r as [d|e]; cbn in Hc; [| by right].
        apply lookup_insert_Some in Hc as [[<- <-]|[_ ?]]; [left; by exists d | by right]. }
      destruct Hc' as [(d & -> & -> & ->)|Hc'].
      * exists p, rq. split; [done |]. split; [done |]. cbn. apply lookup_insert_eq.
      * destruct (H4 _ _ Hc') as (q & rq' & Hq & HK & Hr). exists q, rq'.
        split; [by destruct r |]. split; [done |].
        assert (q ≠ p) by congruence. destruct r; cbn; by rewrite lookup_insert_ne.
Qed.

Lemma loadCardData_sound i type s : sound s → sound (loadCardData i type s).
Proof.
  intros Hs. unfold loadCardData. destruct (config s !! type) as [cfg|] eqn:Hcfg; [| done].
  set (K := generateCacheKey (globalFilters s) type (Options None true)).
  destruct (cache s !! K) eqn:Hc; [by apply (sound_same s) |].
  destruct (loadingPromises s !! K) eqn:Hl; [apply attach_other_sound; [by intros [] | done] |].
  rewrite (fetchReport_new type _ cfg); [| done | done | done].
  cbn [setCardLoading set_cardElements requests globalFilters].
  fold K.
  match goal with
  | |- context [Request K ?url] =>
      destruct (new_request_sound K url (setCardLoading i true s)) as [Hs' Hp];
        [by apply (sound_same s) |]
  end.
  cbn zeta in Hs', Hp.
  match goal with |- sound (attach _ _ ?s2) =>
    assert (Hs2 : sound s2
                  ∧ pending s2 (length (requests s))
                      (Request K (request_url cfg (globalFilters s) (Options None true))))
  end.
  { split.
    - eapply sound_same; [exact Hs' | done | done | done | | done].
      cbn. by rewrite insert_insert_eq.
    - destruct Hp as [? ?]. by split. }
  destruct Hs2 as [Hs2 Hp2].
  exact (attach_leader_sound _ _ i cfg _ Hp2 Hs2).
Qed.

Lemma refreshCards_sound s : sound s → sound (refreshCards s).
Proof.
  unfold refreshCards. generalize (cards s) as l. intros l. revert s.
  induction l as [|tc l IH]; intros s Hs; cbn [fold_left]; [done |].
  apply IH. by apply loadCardData_sound.
Qed.

Lemma runReport_sound type s : sound s → sound (runReport type s).
Proof.
  intros Hs. unfold runReport. destruct (modals s !! type) as [m|]; [| done].
  match goal with |- context [fetchReport ?t ?o ?s0] =>
    assert (Hs0 : sound s0) by (by apply (sound_same s));
    pose proof (proj1 (fetchReport_sound t o s0 Hs0)) as Hf;
    destruct (fetchReport t o s0) as [s1 pr]
  end.
  apply attach_other_sound; [by intros [] | done].
Qed.

Lemma modal_open_sound type s : sound s → sound (modal_open type s).
Proof.
  intros Hs. unfold modal_open. destruct (modals s !! type) as [m|]; [| done].
  destruct (isOpen m); [done |].
  destruct (loadedOnce m); [by apply (sound_same s) |].
  apply runReport_sound. by apply (sound_same s).
Qed.

Lemma modal_close_sound type s : sound s → sound (modal_close type s).
Proof.
  intros Hs. unfold modal_close. destruct (modals s !! type) as [m|]; [| done].
  destruct (isOpen m); [| done].
  destruct (previousActive m); by apply (sound_same s).
Qed.

(** [clearCache] forgets the requests in flight; they stay in the log and
    will settle, but nothing refers to them any more. *)
Lemma clearCache_sound s : sound s → sound (clearCache s).
Proof.
  intros [H1 H2 H3 H4]. split; cbn; done.
Qed.

Lemma step_sound e s : sound s → sound (step e s).
Proof.
  destruct e as [i| |start finish|i|type| |type|type i value|p b]; cbn [step]; intros Hs.
  - destruct (cardElements s !! i) as [c|]; [| done].
    destruct (_ && _); [| done].
    eapply sound_same; [by apply (loadCardData_sound i (trigger c)) | done..].
  - by apply refreshCards_sound.
  - eapply sound_same; [apply refreshCards_sound, clearCache_sound | done..].
    by apply (sound_same s).
  - destruct (cardElements s !! i) as [c|]; [| done].
    destruct (config s !! trigger c); [by apply modal_open_sound | done].
  - by apply modal_close_sound.
  - destruct (activeModal s); [by apply modal_close_sound | done].
  - by apply runReport_sound.
  - by apply (sound_same s).
  - by apply settle_sound.
Qed.

Lemma run_sound trace s : sound s → sound (run trace s).
Proof.
  unfold run. revert s.
  induction trace as [|e trace IH]; intros s Hs; cbn [fold_left]; [done |].
  apply IH. by apply step_sound.
Qed.

(** X12.  Whatever happens on the page, range changes included, an entry of
    the in-flight registry is a request of that cache key that has not
    settled, and a promise that [fetchReport] returns as in flight is
    pending after the call: no caller is handed a promise that has already
    settled. *)
Theorem registry_holds_pending_requests (config : gmap string descriptor) (lazy : bool)
    (cardElements : list card) (modalElements : list modal_element)
    (focus : option string) (trace : list event) :
  let s := run trace (init config lazy cardElements modalElements focus) in
  (∀ K p, loadingPromises s !! K = Some p → ∃ rq, pending s p rq ∧ req_key rq = K)
  ∧ ∀ type opts p,
      (fetchReport type opts s).2 = InFlight p →
      ∃ rq, pending (fetchReport type opts s).1 p rq
            ∧ req_key rq = generateCacheKey (globalFilters s) type opts.
Proof.
  intros s. assert (Hs : sound s) by apply run_sound, init_sound.
  split; [apply (snd_registry s Hs) |].
  intros type opts. apply (fetchReport_sound type opts s Hs).
Qed.

(** X13.  Whatever happens on the page, a payload in the cache is the
    payload some request of the log was fulfilled with, and the request was
    issued for the cache key the payload is stored under. *)
Theorem cache_holds_received_payloads (config : gmap string descriptor) (lazy : bool)
    (cardElements : list card) (modalElements : list modal_element)
    (focus : option string) (trace : list event) (K : string) (data : json) :
  let s := run trace (init config lazy cardElements modalElements focus) in
  cache s !! K = Some data →
  ∃ p rq, requests s !! p = Some rq ∧ req_key rq = K
          ∧ results s !! p = Some (Fulfilled data).
Proof.
  intros s. assert (Hs : sound s) by apply run_sound, init_sound.
  apply (snd_cache s Hs).
Qed.

Lemma cache_holds_received_payloads_witness :
  let b := Responds 40 (Response 200 "OK" (BodyJSON (JObj [("rows", JArr [])]))) in
  let s := run [Intersecting 0; Settle 0 b] sample_page in
  ∃ K p rq,
    cache s !! K = Some (JObj [("rows", JArr [])])
    ∧ requests s !! p = Some rq ∧ req_key rq = K.
Proof.
  intros b s.
  assert (HK : ∃ K, cache s !! K = Some (JObj [("rows", JArr [])])).
  { exists (generateCacheKey (GlobalFilters "" "") "total-sales" (Options None true)).
    vm_compute. reflexivity. }
  destruct HK as [K HK].
  destruct (cache_holds_received_payloads sample_registry true _ _ None
              [Intersecting 0; Settle 0 b] K _ HK) as (p & rq & Hrq & Hkey & _).
  exists K, p, rq. split; [exact HK | split; [exact Hrq | exact Hkey]].
Defined.

(** ** A body that never completes *)

(** X14.  The timer guards the wait for the response headers only.  When
    the headers arrive in time with an OK status and the body never
    completes, the promise never settles: the state stays as it is, with the
    request pending and its entry in the in-flight registry.  Every other
    behaviour of the network settles the promise. *)
Theorem stalled_body_is_never_timed_out (s : dashboard) (p : nat) (rq : request)
    (b : network_behaviour) :
  pending s p rq →
  ((∃ t r, b = Responds t r ∧ (t < TIMEOUT_MS)%N ∧ response_ok r = true
           ∧ body r = BodyPending) →
   settle p b s = s)
  ∧ (¬ (∃ t r, b = Responds t r ∧ (t < TIMEOUT_MS)%N ∧ response_ok r = true
               ∧ body r = BodyPending) →
     ∃ r, results (settle p b s) !! p = Some r
          ∧ loadingPromises (settle p b s) !! req_key rq = None).
Proof.
  intros Hp. split.
  - intros Hb%request_outcome_None. unfold settle. destruct Hp as [-> ->]. by rewrite Hb.
  - intros Hb. destruct (request_outcome b) as [r|] eqn:Hout;
      [| by apply request_outcome_None in Hout].
    exists r. split.
    + rewrite (settle_results s p b rq r Hp Hout). apply lookup_insert_eq.
    + apply (settle_loadingPromises s p b rq r Hp Hout).
Qed.

Lemma stalled_body_is_never_timed_out_witness :
  let s := step (ClickRun "product-sales") sample_page in
  settle 0 (Responds 10 (Response 200 "OK" BodyPending)) s = s.
Proof.
  intros s.
  assert (Hp : ∃ rq, pending s 0 rq) by (eexists; split; vm_compute; reflexivity).
  destruct Hp as [rq Hp].
  apply (proj1 (stalled_body_is_never_timed_out s 0 rq _ Hp)).
  eexists _, _. split; [reflexivity |]. split; [reflexivity | split; reflexivity].
Defined.

(** ** The loading mark of a card *)

Definition not_loading (i : nat) (s : dashboard) : Prop :=
  ∀ c, cardElements s !! i = Some c → card_loading c = false.

Lemma updateCardValue_not_loading i j v s :
  not_loading i s → not_loading i (updateCardValue j v s).
Proof.
  intros H c. cbn. destruct (decide (j = i)) as [->|Hne].
  - rewrite list_lookup_alter_eq. destruct (cardElements s !! i) as [c0|] eqn:Hc; [| done].
    cbn. intros [= <-]. cbn. by apply H.
  - rewrite list_lookup_alter_ne by done. apply H.
Qed.

Lemma setCardLoading_false_not_loading i j s :
  (j = i ∨ not_loading i s) → not_loading i (setCardLoading j false s).
Proof.
  intros H c. cbn. destruct (decide (j = i)) as [->|Hne].
  - rewrite list_lookup_alter_eq. destruct (cardElements s !! i) as [c0|]; [| done].
    cbn. by intros [= <-].
  - rewrite list_lookup_alter_ne by done. destruct H as [?|H]; [done | apply H].
Qed.

Lemma not_loading_eq i s s' :
  cardElements s' = cardElements s → not_loading i s → not_loading i s'.
Proof. unfold not_loading. by intros ->. Qed.

Lemma react_not_loading i rx r s :
  (∃ cfg K, rx = CardLeader i cfg K) ∨ not_loading i s → not_loading i (react rx r s).
Proof.
  intros H. destruct rx as [j cfg K|j cfg|type]; cbn [react].
  - apply setCardLoading_false_not_loading.
    destruct H as [(cfg' & K' & [= -> _ _])|H]; [by left |]. right.
    apply (not_loading_eq i (match r with
        | Fulfilled data => updateCardValue j (card_value cfg data) (set_cache (insert K data) s)
        | Rejected _ => showToast "No fue posible obtener el resumen del reporte." "error"
                          (updateCardValue j em_dash s)
        end)); [done |].
    destruct r; [apply updateCardValue_not_loading; by apply (not_loading_eq i s) |].
    apply (not_loading_eq i (updateCardValue j em_dash s)); [done |].
    by apply updateCardValue_not_loading.
  - destruct H as [(cfg' & K' & [=])|H]. destruct r; by apply updateCardValue_not_loading.
  - destruct H as [(cfg' & K' & [=])|H].
    destruct (modals s !! type) as [m|]; [| done].
    destruct r as [data|e]; [destruct (render data m) as [m1 []] |];
      by apply (not_loading_eq i s).
Qed.

Lemma run_reactions_not_loading i r (waiting : list (nat * reaction)) s :
  (∃ q cfg K, (q, CardLeader i cfg K) ∈ waiting) ∨ not_loading i s →
  not_loading i (run_reactions r waiting s).
Proof.
  unfold run_reactions. revert s.
  induction waiting as [|[q rx] waiting IH]; intros s H; cbn [fold_left snd].
  - destruct H as [(q & cfg & K & Hin)|H]; [by apply elem_of_nil in Hin | done].
  - apply IH. destruct H as [(q' & cfg & K & Hin)|H].
    + apply elem_of_cons in Hin as [[= -> <-]|Hin]; [| left; eauto].
      right. apply react_not_loading. left. eauto.
    + right. apply react_not_loading. by right.
Qed.

(** X15.  A card does not stay in the loading state: when the request that
    [loadCardData] issued for a card settles, with a payload or with an
    error, the card has lost its loading mark. *)
Theorem card_stops_loading_on_settle (s : dashboard) (p : nat) (rq : request)
    (b : network_behaviour) (r : settled) (i : nat) (cfg : descriptor) (K : string) :
  pending s p rq →
  request_outcome b = Some r →
  (p, CardLeader i cfg K) ∈ reactions s →
  ∀ c, cardElements (settle p b s) !! i = Some c → card_loading c = false.
Proof.
  intros Hp Hb Hin. rewrite (settle_pending s p b rq r Hp Hb).
  apply run_reactions_not_loading. left. exists p, cfg, K.
  apply list_elem_of_filter. split; [done |]. by destruct r.
Qed.

Lemma card_stops_loading_on_settle_witness :
  let s := step (Intersecting 0) sample_page in
  (card_loading <$> cardElements s !! 0) = Some true
  ∧ ∀ c, cardElements (settle 0 Silent s) !! 0 = Some c → card_loading c = false.
Proof.
  intros s. split; [vm_compute; reflexivity |].
  assert (Hp : ∃ rq, pending s 0 rq) by (eexists; split; vm_compute; reflexivity).
  destruct Hp as [rq Hp].
  assert (Hin : ∃ cfg K, (0, CardLeader 0 cfg K) ∈ reactions s).
  { eexists _, _. vm_compute. apply list_elem_of_here. }
  destruct Hin as (cfg & K & Hin).
  exact (card_stops_loading_on_settle s 0 rq Silent _ 0 cfg K Hp eq_refl Hin).
Defined.

(** ** The cards of the page *)






